(** * fbuild: the memoization store, the logger and the ocamldep wrapper

    A shallow embedding of
      - [lib/fbuild/db/pickle_backend.py]  (class [PickleBackend]),
      - [lib/fbuild/console.py]            (class [Log], [color_str]),
      - [lib/fbuild/builders/ocaml.py]     (class [Ocamldep]),
    and the properties of these that the specification states.

    Python dictionaries are finite maps ([gmap]), Python sets are [gset],
    Python lists are lists, [int] is [Z], [str] is [string].  A method that
    mutates [self] becomes a function returning the new state; a method
    that may raise returns a [res]. *)

From Stdlib Require Import ZArith Ascii String.
From Stdlib.Strings Require Import Byte.
From stdpp Require Import base option list strings gmap fin_maps pretty.

Local Open Scope string_scope.
Local Open Scope list_scope.
Local Open Scope Z_scope.

(** ** Exceptions *)

Inductive exn : Type :=
  | KeyError
  | IndexError
  | ValueError
  | OSError.

Inductive res (A : Type) : Type :=
  | Ok (a : A)
  | Raise (e : exn).

Arguments Ok {A} a.
Arguments Raise {A} e.

Definition res_bind {A B : Type} (m : res A) (k : A → res B) : res B :=
  match m with
  | Ok a => k a
  | Raise e => Raise e
  end.

(** ** Python list indexing

    [l[i]] accepts [-len(l) <= i < len(l)]; a negative index counts from
    the end; anything else is an [IndexError]. *)

Definition py_index (n : nat) (i : Z) : option nat :=
  if bool_decide (0 ≤ i < Z.of_nat n) then Some (Z.to_nat i)
  else if bool_decide (- Z.of_nat n ≤ i < 0) then Some (Z.to_nat (Z.of_nat n + i))
  else None.

Definition py_getitem {A : Type} (l : list A) (i : Z) : res A :=
  match py_index (length l) i with
  | Some k =>
      match l !! k with
      | Some x => Ok x
      | None => Raise IndexError
      end
  | None => Raise IndexError
  end.

Definition py_setitem {A : Type} (l : list A) (i : Z) (x : A) : res (list A) :=
  match py_index (length l) i with
  | Some k => Ok (<[k := x]> l)
  | None => Raise IndexError
  end.

(** ** The file system under [save]

    Modelled from the spec: [fbuild.path.Path] is not among the sources.
    The commit of the spec names its operations (write, "exists", "rename",
    "delete"); they are taken with the POSIX meaning of [os.path.exists],
    [os.rename] (which replaces an existing destination) and [os.remove].
    A file system is a finite map from path to contents, with what the
    system lets the process do: an operation that is not permitted (a
    missing or read-only directory, a file the user may not read) raises
    [OSError]. Every completed operation is appended to a trace. *)

Module Fs.
Definition bytes : Type := list byte.

Inductive op : Type :=
  | Write (p : string) (s : bytes)
  | Rename (src dst : string)
  | Remove (p : string)
  | Read (p : string).

Record state : Type := mkState {
  files : gmap string (list byte);
  trace : list op;
  permitted : op → bool
}.

(** Computations that read and change the file system, or raise. *)
Definition M (A : Type) : Type := state → res (A * state).

Definition ret {A : Type} (a : A) : M A := λ σ, Ok (a, σ).

Definition bind {A B : Type} (m : M A) (k : A → M B) : M B :=
  λ σ, match m σ with
       | Ok (a, σ') => k a σ'
       | Raise e => Raise e
       end.

(** [with open(p, 'wb') as f: f.write(s)] *)
Definition write_file (p : string) (s : bytes) : M unit :=
  λ σ, if permitted σ (Write p s)
       then Ok (tt, mkState (<[p := s]> (files σ)) (trace σ ++ [Write p s])
                            (permitted σ))
       else Raise OSError.

(** [p.exists()] *)
Definition path_exists (p : string) : M bool :=
  λ σ, Ok (bool_decide (is_Some (files σ !! p)), σ).

(** [src.rename(dst)] *)
Definition rename (src dst : string) : M unit :=
  λ σ, match files σ !! src with
       | None => Raise OSError
       | Some c =>
           if permitted σ (Rename src dst)
           then Ok (tt, mkState (<[dst := c]> (delete src (files σ)))
                                (trace σ ++ [Rename src dst]) (permitted σ))
           else Raise OSError
       end.

(** [p.remove()] *)
Definition remove (p : string) : M unit :=
  λ σ, match files σ !! p with
       | None => Raise OSError
       | Some _ =>
           if permitted σ (Remove p)
           then Ok (tt, mkState (delete p (files σ)) (trace σ ++ [Remove p])
                                (permitted σ))
           else Raise OSError
       end.

(** [with open(p, 'rb') as f], and the read of the whole file. *)
Definition read_file (p : string) : M bytes :=
  λ σ, match files σ !! p with
       | None => Raise OSError
       | Some c =>
           if permitted σ (Read p)
           then Ok (c, mkState (files σ) (trace σ ++ [Read p]) (permitted σ))
           else Raise OSError
       end.

(** [if b: m] *)
Definition when (b : bool) (m : M unit) : M unit :=
  if b then m else ret tt.
End Fs.

#[global] Instance Fs_ret : MRet Fs.M := @Fs.ret.
#[global] Instance Fs_bind : MBind Fs.M := λ A B k m, Fs.bind m k.

(** ** The memoization store: [PickleBackend] *)

Module PickleBackend.
Section Store.
(** [Value] is the type of the values a bound argument can take, compared
    structurally; [Result] is whatever a cached function returned;
    [Mtime] is the modification time of a file (a float the store only
    keeps and hands back). *)
Context {Value Result Mtime : Type} `{!EqDecision Value}.

(** [bound] is a [dict] from parameter name to value. *)
Definition Bound : Type := gmap string Value.

Record Store : Type := mkStore {
  _functions : gmap string string;
  _function_calls : gmap string (list (Bound * Result));
  _files : gmap string (Mtime * string);
  _call_files : gmap string (gmap string (gmap Z string));
  _external_srcs : gmap string (gmap Z (gset string));
  _external_dsts : gmap string (gmap Z (gset string))
}.

(** [__init__] *)
Definition init : Store :=
  mkStore ∅ ∅ ∅ ∅ ∅ ∅.

(** [find_function] *)
Definition find_function (self : Store) (fun_name : string) : option string :=
  match _functions self !! fun_name with
  | Some d => Some d
  | None => None
  end.

(** The two loops of [delete_function] over [_call_files]: drop
    [fun_name] from every value, collect the keys whose value became
    empty, then delete those keys. *)
Definition purge_call_files (fun_name : string)
    (cf : gmap string (gmap string (gmap Z string)))
    : gmap string (gmap string (gmap Z string)) :=
  let cf1 := delete fun_name <$> cf in
  let remove_keys :=
    (filter (λ kv : string * gmap string (gmap Z string), kv.2 = ∅)
            (map_to_list cf1)).*1 in
  foldr delete cf1 remove_keys.

(** [delete_function] *)
Definition delete_function (self : Store) (fun_name : string) : Store :=
  mkStore
    (delete fun_name (_functions self))
    (delete fun_name (_function_calls self))
    (_files self)
    (purge_call_files fun_name (_call_files self))
    (delete fun_name (_external_srcs self))
    (delete fun_name (_external_dsts self)).

(** [save_function] *)
Definition save_function (self : Store) (fun_name fun_digest : string) : Store :=
  let self := delete_function self fun_name in
  mkStore
    (<[fun_name := fun_digest]> (_functions self))
    (_function_calls self) (_files self) (_call_files self)
    (_external_srcs self) (_external_dsts self).

(** The [for index, (old_bound, old_result) in enumerate(datas)] loop of
    [find_call], started at [index]. *)
Fixpoint scan_calls (bound : Bound) (index : Z) (datas : list (Bound * Result))
    : option Z * option Result :=
  match datas with
  | [] => (None, None)
  | (old_bound, old_result) :: rest =>
      if decide (bound = old_bound) then (Some index, Some old_result)
      else scan_calls bound (index + 1) rest
  end.

(** [find_call] *)
Definition find_call (self : Store) (function : string) (bound : Bound)
    : option Z * option Result :=
  match _function_calls self !! function with
  | None => (None, None)
  | Some datas => scan_calls bound 0 datas
  end.

Definition set_function_calls (self : Store)
    (fc : gmap string (list (Bound * Result))) : Store :=
  mkStore (_functions self) fc (_files self) (_call_files self)
          (_external_srcs self) (_external_dsts self).

(** [save_call]: the returned pair is the call id and the new state. *)
Definition save_call (self : Store) (fun_name : string) (call_id : option Z)
    (bound : Bound) (result : Result) : res (Z * Store) :=
  match _function_calls self !! fun_name with
  | None =>
      Ok (0, set_function_calls self
               (<[fun_name := [(bound, result)]]> (_function_calls self)))
  | Some datas =>
      match call_id with
      | None =>
          let datas := datas ++ [(bound, result)] in
          Ok (Z.of_nat (length datas) - 1,
              set_function_calls self (<[fun_name := datas]> (_function_calls self)))
      | Some call_id =>
          res_bind (py_setitem datas call_id (bound, result)) (λ datas,
          Ok (call_id,
              set_function_calls self (<[fun_name := datas]> (_function_calls self))))
      end
  end.

(** [find_call_file] *)
Definition find_call_file (self : Store) (call_id : Z) (fun_name file_name : string)
    : option string :=
  match _call_files self !! file_name with
  | None => None
  | Some by_fun =>
      match by_fun !! fun_name with
      | None => None
      | Some by_id =>
          match by_id !! call_id with
          | None => None
          | Some digest => Some digest
          end
      end
  end.

Definition set_call_files (self : Store)
    (cf : gmap string (gmap string (gmap Z string))) : Store :=
  mkStore (_functions self) (_function_calls self) (_files self) cf
          (_external_srcs self) (_external_dsts self).

(** [save_call_file]: the two [setdefault]s followed by the item
    assignment. *)
Definition save_call_file (self : Store) (call_id : Z)
    (fun_name file_name digest : string) : Store :=
  let by_fun := default ∅ (_call_files self !! file_name) in
  let by_id := default ∅ (by_fun !! fun_name) in
  set_call_files self
    (<[file_name := <[fun_name := <[call_id := digest]> by_id]> by_fun]>
       (_call_files self)).

(** [find_external_srcs] *)
Definition find_external_srcs (self : Store) (call_id : Z) (fun_name : string)
    : gset string :=
  match _external_srcs self !! fun_name with
  | None => ∅
  | Some by_id =>
      match by_id !! call_id with
      | None => ∅
      | Some srcs => srcs
      end
  end.

(** [find_external_dsts] *)
Definition find_external_dsts (self : Store) (call_id : Z) (fun_name : string)
    : gset string :=
  match _external_dsts self !! fun_name with
  | None => ∅
  | Some by_id =>
      match by_id !! call_id with
      | None => ∅
      | Some dsts => dsts
      end
  end.

(** Modelled from the spec: [save_call_files] is a method of the base
    class [fbuild.db.backend.Backend], which is not among the sources.
    The spec has [save_external_files] store "all digests" of the call:
    each [(src, digest)] pair is recorded with [save_call_file], in
    order. *)
Definition save_call_files (self : Store) (call_id : Z) (fun_name : string)
    (digests : list (string * string)) : Store :=
  foldl (λ self sd, save_call_file self call_id fun_name sd.1 sd.2) self digests.

(** [save_external_files] *)
Definition save_external_files (self : Store) (fun_name : string) (call_id : Z)
    (srcs dsts : gset string) (digests : list (string * string)) : Store :=
  let self :=
    mkStore (_functions self) (_function_calls self) (_files self)
      (_call_files self)
      (<[fun_name := <[call_id := srcs]> (default ∅ (_external_srcs self !! fun_name))]>
         (_external_srcs self))
      (<[fun_name := <[call_id := dsts]> (default ∅ (_external_dsts self !! fun_name))]>
         (_external_dsts self)) in
  save_call_files self call_id fun_name digests.

(** [find_file] *)
Definition find_file (self : Store) (file_name : string)
    : option Mtime * option string :=
  match _files self !! file_name with
  | Some (mtime, digest) => (Some mtime, Some digest)
  | None => (None, None)
  end.

(** [save_file] *)
Definition save_file (self : Store) (file_name : string) (mtime : Mtime)
    (digest : string) : Store :=
  mkStore (_functions self) (_function_calls self)
    (<[file_name := (mtime, digest)]> (_files self))
    (_call_files self) (_external_srcs self) (_external_dsts self).

(** [delete_file] *)
Definition delete_file (self : Store) (file_name : string) : Store :=
  mkStore (_functions self) (_function_calls self)
    (delete file_name (_files self))
    (delete file_name (_call_files self))
    (_external_srcs self) (_external_dsts self).

End Store.
Arguments Store : clear implicits.

Section Save.
Context {Value Result Mtime : Type}.

(** [pickle] stands for the [_Pickler(...).dump] of the six relations
    into a [BytesIO], of the Python library: the bytes of the tuple. *)
Variable pickle :
  gmap string string * gmap string (list (gmap string Value * Result)) *
  gmap string (Mtime * string) * gmap string (gmap string (gmap Z string)) *
  gmap string (gmap Z (gset string)) * gmap string (gmap Z (gset string))
  → Fs.bytes.

(** The bytes [s] of [save]. *)
Definition dumps (self : Store Value Result Mtime) : Fs.bytes :=
  pickle (_functions self, _function_calls self, _files self,
          _call_files self, _external_srcs self, _external_dsts self).

(** [save] *)
Definition save (self : Store Value Result Mtime) (filename : string) : Fs.M unit :=
  let s := dumps self in
  let path := filename in
  let tmp := path +:+ ".tmp" in
  let old := path +:+ ".old" in
  Fs.write_file tmp s ;;
  b ← Fs.path_exists path;
  Fs.when b (Fs.rename path old) ;;
  Fs.rename tmp path ;;
  b ← Fs.path_exists old;
  Fs.when b (Fs.remove old).
End Save.
End PickleBackend.

(** ** Strings as Python has them *)

(** [len(s)] *)
Definition len (s : string) : Z := Z.of_nat (String.length s).

(** The string of [n] spaces. *)
Fixpoint spaces (n : nat) : string :=
  match n with
  | O => ""
  | S n => String " " (spaces n)
  end.

(** [s.ljust(width)]: [s] followed by spaces up to [width] characters, and
    [s] itself when it is already that long. *)
Definition ljust (s : string) (width : Z) : string :=
  s +:+ spaces (Z.to_nat (width - len s)).

(** The characters ["\x1b"] and ["\n"]. *)
Definition esc : string := String "027"%char "".
Definition nl : string := String "010"%char "".

(** ** The console: [color_str] and [Log] *)

Module Console.

Definition colorcodes : list (string * Z) :=
  [ ("black", 30); ("red", 31); ("green", 32); ("yellow", 33);
    ("blue", 34); ("magenta", 35); ("cyan", 36); ("white", 37) ].

(** [colorcodes[color]] *)
Fixpoint lookup_color (table : list (string * Z)) (color : string) : option Z :=
  match table with
  | [] => None
  | (name, code) :: rest =>
      if decide (name = color) then Some code else lookup_color rest color
  end.

(** ['%.2d' % n]: the decimal digits of [n], at least two of them, after
    the sign. *)
Definition fmt_2d (n : Z) : string :=
  let digits := pretty.pretty (Z.abs_N n) in
  let digits := if bool_decide (String.length digits < 2)%nat then "0" +:+ digits else digits in
  if bool_decide (n < 0) then "-" +:+ digits else digits.

(** [color_str]; [win32] is [sys.platform == 'win32']. *)
Definition color_str (win32 : bool) (s : string) (color : option string) : string :=
  match color with
  | Some color =>
      if negb win32 then
        match lookup_color colorcodes color with
        | None => s
        | Some color => esc +:+ "[01;" +:+ fmt_2d color +:+ "m" +:+ s +:+ esc +:+ "[0m"
        end
      else s
  | None => s
  end.

(** The keyword arguments [color] and [verbose] of a write. *)
Record Kwargs : Type := mkKwargs {
  kw_color : option string;
  kw_verbose : Z
}.

(** What the methods read from outside the object: the platform, the
    number of scheduler threads [fbuild.scheduler.count], and the
    identity and name of [threading.current_thread()]. *)
Record Env : Type := mkEnv {
  win32 : bool;
  scheduler_count : Z;
  current_thread : nat;
  thread_name : string
}.

(** The object, with the text written so far to [self.logfile] and to
    [sys.stdout]. *)
Record Log : Type := mkLog {
  logfile : string;
  stdout : string;
  verbose : Z;
  nocolor : bool;
  show_threads : bool;
  maxlen : Z;
  _thread_stacks : gmap nat (list (list (string * Kwargs)))
}.

(** [__init__]: the file is opened with ['w'], hence empty. *)
Definition init (out : string) (verbose : Z) (nocolor show_threads : bool) : Log :=
  mkLog "" out verbose nocolor show_threads 25 ∅.

(** [_write] *)
Definition _write (env : Env) (self : Log) (msg : string)
    (color : option string) (verbose' : Z) : Log :=
  let logfile' := logfile self +:+ msg in
  let stdout' :=
    if bool_decide (verbose' ≤ verbose self) then
      let msg := if negb (nocolor self) then color_str (win32 env) msg color else msg in
      stdout self +:+ msg
    else stdout self in
  mkLog logfile' stdout' (verbose self) (nocolor self) (show_threads self)
        (maxlen self) (_thread_stacks self).

Definition set_thread_stacks (self : Log)
    (stacks : gmap nat (list (list (string * Kwargs)))) : Log :=
  mkLog (logfile self) (stdout self) (verbose self) (nocolor self)
        (show_threads self) (maxlen self) stacks.

(** [stack[-1].append(x)] on a non-empty [stack]. *)
Fixpoint append_to_last {A : Type} (stack : list (list A)) (x : A) : list (list A) :=
  match stack with
  | [] => []
  | [top] => [top ++ [x]]
  | frame :: rest => frame :: append_to_last rest x
  end.

(** [write] *)
Definition write (env : Env) (self : Log) (msg : string) (buffer : bool)
    (color : option string) (verbose' : Z) : Log :=
  if negb buffer || bool_decide (scheduler_count env = 1) then
    _write env self msg color verbose'
  else
    let t := current_thread env in
    let stack := default [] (_thread_stacks self !! t) in
    let self := set_thread_stacks self (<[t := stack]> (_thread_stacks self)) in
    if buffer && negb (bool_decide (stack = [])) then
      set_thread_stacks self
        (<[t := append_to_last stack (msg, mkKwargs color verbose')]>
           (_thread_stacks self))
    else
      _write env self msg color verbose'.

(** The [for msg, kwargs in msgs: self._write(msg, **kwargs)] loop. *)
Definition write_all (env : Env) (self : Log) (msgs : list (string * Kwargs)) : Log :=
  foldl (λ self mk, _write env self mk.1 (kw_color mk.2) (kw_verbose mk.2)) self msgs.

(** [log_from_thread], up to the [yield]. *)
Definition log_from_thread_enter (env : Env) (self : Log) : Log :=
  let t := current_thread env in
  let stack := default [] (_thread_stacks self !! t) in
  set_thread_stacks self (<[t := stack ++ [[]]]> (_thread_stacks self)).

(** [log_from_thread], the [finally] block: [stack.pop()] and the
    writes. *)
Definition log_from_thread_exit (env : Env) (self : Log) : res Log :=
  let t := current_thread env in
  match _thread_stacks self !! t with
  | None => Raise IndexError
  | Some stack =>
      match last stack with
      | None => Raise IndexError
      | Some msgs =>
          let self :=
            set_thread_stacks self
              (<[t := take (length stack - 1) stack]> (_thread_stacks self)) in
          Ok (write_all env self msgs)
      end
  end.

(** [log] *)
Definition log (env : Env) (self : Log) (msg : string)
    (color : option string) (verbose' : Z) : Log :=
  let self := write env self msg true color verbose' in
  write env self nl true None verbose'.

(** The label of [check] once the thread name is put in front. *)
Definition check_msg (env : Env) (self : Log) (msg : string) : string :=
  if show_threads self then ljust (thread_name env) 10 +:+ ": " +:+ msg else msg.

(** The [if d >= self.maxlen: self.maxlen = min(d + 1, 40)] of [check]. *)
Definition check_maxlen (self : Log) (msg : string) : Log :=
  let d := len msg in
  if bool_decide (maxlen self ≤ d) then
    mkLog (logfile self) (stdout self) (verbose self) (nocolor self)
          (show_threads self) (Z.min (d + 1) 40) (_thread_stacks self)
  else self.

(** [msg.ljust(self.maxlen) + ': '] *)
Definition check_label (self : Log) (msg : string) : string :=
  ljust msg (maxlen self) +:+ ": ".

(** [check] *)
Definition check (env : Env) (self : Log) (msg : string)
    (result : option string) (color : option string) (verbose' : Z) : Log :=
  let msg := check_msg env self msg in
  let self := check_maxlen self msg in
  let msg := check_label self msg in
  match result with
  | None =>
      let self := write env self msg true color verbose' in
      write env self nl true None (verbose' + 1)
  | Some result =>
      let self := write env self msg true None verbose' in
      let self := write env self result true color verbose' in
      write env self nl true None verbose'
  end.

(** [passed] and [failed] *)
Definition passed (env : Env) (self : Log) (msg : string) (color : option string) : Log :=
  log env self msg color 0.

Definition failed (env : Env) (self : Log) (msg : string) (color : option string) : Log :=
  log env self msg color 0.

End Console.

(** ** More of Python's strings and of [os.path] (POSIX) *)

(** [s.replace('\\\n', '')] *)
Fixpoint join_continued (s : string) : string :=
  match s with
  | "" => ""
  | String c s' =>
      match s' with
      | String c' s'' =>
          if bool_decide (c = "\"%char ∧ c' = "010"%char) then join_continued s''
          else String c (join_continued s')
      | "" => String c ""
      end
  end.

(** The lines that iterating over [io.StringIO(s)] yields, each with its
    ending newline when it has one. *)
Fixpoint readlines (s : string) : list string :=
  match s with
  | "" => []
  | String c s' =>
      if bool_decide (c = "010"%char) then String c "" :: readlines s'
      else match readlines s' with
           | [] => [String c ""]
           | l :: ls => String c l :: ls
           end
  end.

(** [c.isspace()] for a character below 256. *)
Definition is_space (c : ascii) : bool :=
  let n := nat_of_ascii c in
  bool_decide (9 ≤ n ≤ 13 ∨ 28 ≤ n ≤ 32 ∨ n = 133 ∨ n = 160)%nat.

(** The word that starts [s] and the words after it. *)
Fixpoint split_go (s : string) : string * list string :=
  match s with
  | "" => ("", [])
  | String c s' =>
      let '(w, ws) := split_go s' in
      if is_space c then ("", if bool_decide (w = "") then ws else w :: ws)
      else (String c w, ws)
  end.

(** [s.split()] *)
Definition split (s : string) : list string :=
  let '(w, ws) := split_go s in
  if bool_decide (w = "") then ws else w :: ws.

(** [s.rfind(c)]: the highest index of [c] in [s], or [-1]. *)
Fixpoint rfind_from (c : ascii) (s : string) (i last : Z) : Z :=
  match s with
  | "" => last
  | String a s' => rfind_from c s' (i + 1) (if bool_decide (a = c) then i else last)
  end.

Definition rfind (c : ascii) (s : string) : Z := rfind_from c s 0 (-1).

(** [s[lo:hi]] and [s[lo:]] for [0 <= lo]. *)
Definition slice (s : string) (lo hi : Z) : string :=
  substring (Z.to_nat lo) (Z.to_nat (hi - lo)) s.

Definition slice_from (s : string) (lo : Z) : string :=
  substring (Z.to_nat lo) (String.length s) s.

(** [s[:-1]] *)
Definition drop_last (s : string) : string :=
  slice s 0 (len s - 1).

Fixpoint all_chars (P : ascii → bool) (s : string) : bool :=
  match s with
  | "" => true
  | String c s' => P c && all_chars P s'
  end.

(** [s.rstrip('/')] *)
Fixpoint rstrip_slash (s : string) : string :=
  match s with
  | "" => ""
  | String c s' =>
      let r := rstrip_slash s' in
      if bool_decide (c = "/"%char ∧ r = "") then "" else String c r
  end.

(** [os.path.splitext]: the extension starts at the last dot of the last
    component, unless only dots come before it in that component. *)
Definition splitext (p : string) : string * string :=
  let sepIndex := rfind "/" p in
  let dotIndex := rfind "." p in
  if bool_decide (sepIndex < dotIndex) then
    if all_chars (λ c, bool_decide (c = "."%char)) (slice p (sepIndex + 1) dotIndex)
    then (p, "")
    else (slice p 0 dotIndex, slice_from p dotIndex)
  else (p, "").

(** [os.path.dirname] *)
Definition dirname (p : string) : string :=
  let i := rfind "/" p + 1 in
  let head := slice p 0 i in
  if bool_decide (head ≠ "") && negb (all_chars (λ c, bool_decide (c = "/"%char)) head)
  then rstrip_slash head
  else head.

(** ** The dependency extractor: [Ocamldep] *)

Module Ocamldep.

Record Ocamldep : Type := mkOcamldep {
  exe : string;
  module_flags : list string
}.

(** What [__call__] takes from outside: [execute], which runs a command
    and gives what it printed, the text that ends up in the [.depends]
    file and is read back; and [os.listdir]. *)
Record Env : Type := mkEnv {
  execute : list string → res string;
  listdir : string → res (list string)
}.

(** The command line [cmd]. *)
Definition command (self : Ocamldep) (src : string) (includes flags : list string)
    : list string :=
  let cmd := [exe self] in
  let cmd := cmd ++ module_flags self in
  let cmd := foldl (λ cmd i, cmd ++ ["-I"; i]) cmd includes in
  let d := dirname src in
  let cmd :=
    if bool_decide (d ≠ "") && negb (bool_decide (d ∈ includes))
    then cmd ++ ["-I"; d] else cmd in
  let cmd := cmd ++ flags in
  cmd ++ [src].

(** [fix]: a Python function that falls off its end returns [None]. *)
Definition fix_ (path : string) : option string :=
  let '(base, ext) := splitext path in
  if bool_decide (ext = ".cmo" ∨ ext = ".cmx") then Some (base +:+ ".ml")
  else if bool_decide (ext = ".cmi") then Some (base +:+ ".mli")
  else None.

(** One turn of the loop that fills [d]:
    [filename, *deps = line.split()] raises [ValueError] on a line with
    no word. *)
Definition parse_line (d : gmap (option string) (list (option string)))
    (line : string) : res (gmap (option string) (list (option string))) :=
  match split line with
  | [] => Raise ValueError
  | filename :: deps =>
      Ok (<[fix_ (drop_last filename) := fix_ <$> deps]> d)
  end.

(** The dictionary [d] read from the text of the [.depends] file. *)
Definition parse_depends (text : string)
    : res (gmap (option string) (list (option string))) :=
  foldl (λ d line, res_bind d (λ d, parse_line d line))
        (Ok ∅) (readlines (join_continued text)).

(** The inner loop: [if path not in paths: paths.append(path)]. *)
Definition add_paths (paths deps : list (option string)) : list (option string) :=
  foldl (λ paths path, if bool_decide (path ∈ paths) then paths else paths ++ [path])
        paths deps.

(** [os.path.dirname(src) or '.'], the one element of the tuple the
    outer loop runs over. *)
Definition include_path (src : string) : string :=
  if bool_decide (dirname src ≠ "") then dirname src else ".".

(** [__call__] *)
Definition call (env : Env) (self : Ocamldep) (src : string)
    (includes flags : list string) : res (list (option string)) :=
  let cmd := command self src includes flags in
  res_bind (execute env cmd) (λ text,
  res_bind (parse_depends text) (λ d,
  let paths := [] in
  res_bind (listdir env (include_path src)) (λ dirs,
  let paths := add_paths paths (default [] (d !! Some src)) in
  Ok paths))).

End Ocamldep.

(** ** Sequences of store operations *)

Module StoreOps.
Import PickleBackend.
Section Ops.
Context {Value Result Mtime : Type} `{!EqDecision Value}.

(** The operations of the store that change it. *)
Inductive op : Type :=
  | SaveFunction (fun_name fun_digest : string)
  | DeleteFunction (fun_name : string)
  | SaveCall (fun_name : string) (call_id : option Z)
             (bound : gmap string Value) (result : Result)
  | SaveCallFile (call_id : Z) (fun_name file_name digest : string)
  | SaveExternalFiles (fun_name : string) (call_id : Z)
                      (srcs dsts : gset string) (digests : list (string * string))
  | SaveFile (file_name : string) (mtime : Mtime) (digest : string)
  | DeleteFile (file_name : string).

Definition apply (self : Store Value Result Mtime) (o : op)
    : res (Store Value Result Mtime) :=
  match o with
  | SaveFunction f d => Ok (save_function self f d)
  | DeleteFunction f => Ok (delete_function self f)
  | SaveCall f i b r => res_bind (save_call self f i b r) (λ p, Ok p.2)
  | SaveCallFile i f p d => Ok (save_call_file self i f p d)
  | SaveExternalFiles f i srcs dsts ds => Ok (save_external_files self f i srcs dsts ds)
  | SaveFile p m d => Ok (save_file self p m d)
  | DeleteFile p => Ok (delete_file self p)
  end.

(** The states that some sequence of operations reaches from the empty
    store. *)
Inductive reachable : Store Value Result Mtime → Prop :=
  | reachable_init : reachable init
  | reachable_step self o self' :
      reachable self → apply self o = Ok self' → reachable self'.

(** The file relation holds [(mtime, digest)] for the path. *)
Definition file_has_digest (self : Store Value Result Mtime)
    (file_name digest : string) : Prop :=
  ∃ mtime, _files self !! file_name = Some (mtime, digest).

(** An operation records digests of call files only for paths whose file
    record has that digest at that time. *)
Definition records_known_digests (self : Store Value Result Mtime) (o : op) : Prop :=
  match o with
  | SaveCallFile _ _ p d => file_has_digest self p d
  | SaveExternalFiles _ _ _ _ ds => ∀ p d, (p, d) ∈ ds → file_has_digest self p d
  | _ => True
  end.

Inductive reachable_recording : Store Value Result Mtime → Prop :=
  | reachable_recording_init : reachable_recording init
  | reachable_recording_step self o self' :
      reachable_recording self → records_known_digests self o →
      apply self o = Ok self' → reachable_recording self'.

(** Every entry of the call-file relation has a file record for its
    path. *)
Definition call_files_have_file (self : Store Value Result Mtime) : Prop :=
  ∀ p f i d, find_call_file self i f p = Some d →
    ∃ mtime d', _files self !! p = Some (mtime, d').

(** No path of [_call_files] is kept with an empty dictionary. *)
Definition no_empty_call_files (self : Store Value Result Mtime) : Prop :=
  ∀ p by_fun, _call_files self !! p = Some by_fun → by_fun ≠ ∅.

(** The function name is a key of no relation. *)
Definition function_absent (self : Store Value Result Mtime) (fun_name : string) : Prop :=
  _functions self !! fun_name = None ∧
  _function_calls self !! fun_name = None ∧
  _external_srcs self !! fun_name = None ∧
  _external_dsts self !! fun_name = None ∧
  ∀ p by_fun, _call_files self !! p = Some by_fun → by_fun !! fun_name = None.

(** The file path is a key of no relation. *)
Definition file_absent (self : Store Value Result Mtime) (file_name : string) : Prop :=
  _files self !! file_name = None ∧ _call_files self !! file_name = None.

(** The two states hold the same relations: the same records in the five
    plain dictionaries, and the same digests per function and path in
    [_call_files]. *)
Definition same_relations (a b : Store Value Result Mtime) : Prop :=
  _functions a = _functions b ∧
  _function_calls a = _function_calls b ∧
  _files a = _files b ∧
  _external_srcs a = _external_srcs b ∧
  _external_dsts a = _external_dsts b ∧
  ∀ p f, _call_files a !! p ≫= (.!! f) = _call_files b !! p ≫= (.!! f).

(** What the deletions would do if a key that its own relation does not
    hold were deleted without any change: [delete_function] for a name
    that is no key of [_functions], [delete_file] for a path that is no
    key of [_files]. *)
Definition absent_deletes_keep (self : Store Value Result Mtime) : Prop :=
  (∀ name, _functions self !! name = None → delete_function self name = self) ∧
  (∀ p, _files self !! p = None → delete_file self p = self).

(** What [save_call] would do if an integer [call_id] were always the
    position written: it returns [call_id], and the pair is at that
    position of the function's list. *)
Definition overwrites_at (self : Store Value Result Mtime) (fun_name : string)
    (call_id : Z) (bound : gmap string Value) (result : Result) : Prop :=
  ∃ self' datas,
    save_call self fun_name (Some call_id) bound result = Ok (call_id, self') ∧
    _function_calls self' !! fun_name = Some datas ∧
    py_getitem datas call_id = Ok (bound, result).

End Ops.
End StoreOps.

(** ** Sequences of [check] calls *)

Module CheckRuns.
Import Console.

(** The arguments of one call of [check]. *)
Record call : Type := mkCall {
  c_env : Env;
  c_msg : string;
  c_result : option string;
  c_color : option string;
  c_verbose : Z
}.

Definition run_check (self : Log) (c : call) : Log :=
  check (c_env c) self (c_msg c) (c_result c) (c_color c) (c_verbose c).

(** The states after each call of a sequence, in order. *)
Fixpoint run_checks (self : Log) (cs : list call) : list Log :=
  match cs with
  | [] => []
  | c :: cs => let self := run_check self c in self :: run_checks self cs
  end.

(** No thread has an open block of [log_from_thread]: every stack of
    blocks is empty. *)
Definition no_open_block (self : Log) : Prop :=
  ∀ t, default [] (_thread_stacks self !! t) = [].

(** The column of the separating colon: the number of characters in
    front of the final [': ']. *)
Definition colon_column (label : string) : Z := len label - 2.

(** The texts of a block of buffered messages, one after the other. *)
Definition block_text (msgs : list (string * Kwargs)) : string :=
  foldr (λ mk text, mk.1 +:+ text) "" msgs.

End CheckRuns.

(** ** A serializer for concrete stores *)

Module Pickle.

(** The binary digits of a number, lowest first, one byte each. *)
Fixpoint pos_to_bytes (p : positive) : list byte :=
  match p with
  | xH => []
  | xO p => x00%byte :: pos_to_bytes p
  | xI p => x01%byte :: pos_to_bytes p
  end.

Fixpoint bytes_to_pos (l : list byte) : positive :=
  match l with
  | [] => xH
  | b :: l => if Byte.eqb b x00 then xO (bytes_to_pos l) else xI (bytes_to_pos l)
  end.

(** [dumps] and [loads] stand for [pickle.dumps] and [pickle.loads] where
    a property is read on a concrete store: the value is numbered by
    stdpp's [encode] and the number written out; [loads] reads the number
    back from the bytes and raises on bytes that number no value. *)
Definition dumps `{Countable A} (x : A) : list byte := pos_to_bytes (encode x).

Definition loads `{Countable A} (l : list byte) : res A :=
  match decode (bytes_to_pos l) with
  | Some x => Ok x
  | None => Raise ValueError
  end.

End Pickle.

(** ** The steps of a commit *)

Module Commit.

(** The operations of a completed commit of the bytes [s] to [filename]
    on the file system [σ], in order: the write of [filename.tmp]; the
    rename of [filename] to [filename.old] if [filename] is there; the
    rename of [filename.tmp] to [filename]; the removal of
    [filename.old] if it is there then. *)
Definition steps (s : list byte) (filename : string) (σ : Fs.state) : list Fs.op :=
  let tmp := filename +:+ ".tmp" in
  let old := filename +:+ ".old" in
  let had_path := bool_decide (is_Some (Fs.files σ !! filename)) in
  let had_old := bool_decide (is_Some (Fs.files σ !! old)) in
  [Fs.Write tmp s]
  ++ (if had_path then [Fs.Rename filename old] else [])
  ++ [Fs.Rename tmp filename]
  ++ (if had_path || had_old then [Fs.Remove old] else []).

(** The files a completed commit leaves. *)
Definition committed (s : list byte) (filename : string) (σ : Fs.state)
    : gmap string (list byte) :=
  <[filename := s]>
    (delete (filename +:+ ".tmp") (delete (filename +:+ ".old") (Fs.files σ))).

End Commit.

(** ** Loading the store, and a save that is interrupted *)

Module PickleBackendFile.
Import PickleBackend.
Section Load.
Context {Value Result Mtime : Type}.

(** [pickle] as in [save]; [unpickle] stands for [_Unpickler(...).load()],
    of the Python library, which gives back the tuple or raises. *)
Variable pickle :
  gmap string string * gmap string (list (gmap string Value * Result)) *
  gmap string (Mtime * string) * gmap string (gmap string (gmap Z string)) *
  gmap string (gmap Z (gset string)) * gmap string (gmap Z (gset string))
  → Fs.bytes.
Variable unpickle :
  Fs.bytes →
  res (gmap string string * gmap string (list (gmap string Value * Result)) *
       gmap string (Mtime * string) * gmap string (gmap string (gmap Z string)) *
       gmap string (gmap Z (gset string)) * gmap string (gmap Z (gset string))).

(** [load]: the six attributes are assigned together, once the tuple is
    there. *)
Definition load (self : Store Value Result Mtime) (filename : string)
    : Fs.M (Store Value Result Mtime) :=
  Fs.bind (Fs.read_file filename) (λ s σ,
    match unpickle s with
    | Raise e => Raise e
    | Ok (functions, function_calls, files, call_files,
          external_srcs, external_dsts) =>
        Ok (mkStore functions function_calls files call_files
                    external_srcs external_dsts, σ)
    end).

(** The four statements of [save] that touch the file system, in order. *)
Definition save_statements (self : Store Value Result Mtime) (filename : string)
    : list (Fs.M unit) :=
  let s := dumps pickle self in
  let path := filename in
  let tmp := path +:+ ".tmp" in
  let old := path +:+ ".old" in
  [ Fs.write_file tmp s;
    (b ← Fs.path_exists path; Fs.when b (Fs.rename path old));
    Fs.rename tmp path;
    (b ← Fs.path_exists old; Fs.when b (Fs.remove old)) ].

Fixpoint run_statements (ms : list (Fs.M unit)) : Fs.M unit :=
  match ms with
  | [] => Fs.ret tt
  | m :: ms => m ;; run_statements ms
  end.

(** [save] stopped after its first [k] statements, as when the process
    is interrupted between two of them. *)
Definition save_upto (k : nat) (self : Store Value Result Mtime) (filename : string)
    : Fs.M unit :=
  run_statements (take k (save_statements self filename)).

End Load.
End PickleBackendFile.

(** ** Messages written inside [log_from_thread] *)

Module LogScope.
Import Console.



(** What [_write] sends to stdout for a message. *)
Definition shown (env : Env) (self : Log) (mk : string * Kwargs) : string :=
  if bool_decide (kw_verbose mk.2 ≤ verbose self) then
    if nocolor self then mk.1 else color_str (win32 env) mk.1 (kw_color mk.2)
  else "".

Definition block_shown (env : Env) (self : Log) (msgs : list (string * Kwargs)) : string :=
  foldr (λ mk text, shown env self mk +:+ text) "" msgs.

End LogScope.

(** ** The compiler driver: [Builder] of [builders/ocaml.py] *)

Module OcamlBuilder.

Inductive error : Type :=
  | AssertionError
  | ExecutionError.

Record Builder : Type := mkBuilder {
  exe : string;
  obj_suffix : string;
  lib_suffix : string;
  exe_suffix : string;
  debug_flags : list string
}.

(** What the methods take from outside: [make_path] and [glob_paths] of
    [fbuild.path], [os.path.exists], and [execute], which runs a command
    and may fail. *)
Record Env : Type := mkEnv {
  make_path : string → option string → string;
  glob_paths : list string → list string;
  path_exists : string → bool;
  execute : list string → option error
}.

(** The command line of [_run]. *)
Definition run_command (env : Env) (self : Builder) (dst : string) (srcs : list string)
    (includes libs pre_flags flags : list string) (debug : bool) : list string :=
  let extra_srcs :=
    (λ lib, if path_exists env lib then lib else lib +:+ lib_suffix self) <$> libs in
  let cmd := [exe self] in
  let cmd := cmd ++ pre_flags in
  let cmd := if debug then cmd ++ debug_flags self else cmd in
  let cmd := foldl (λ cmd i, cmd ++ ["-I"; i]) cmd includes in
  let d := dirname dst in
  let cmd := if bool_decide (d ∈ includes) then cmd else cmd ++ ["-I"; d] in
  let cmd := cmd ++ flags in
  let cmd := cmd ++ ["-o"; dst] in
  let cmd := cmd ++ extra_srcs in
  cmd ++ srcs.

(** [_run] *)
Definition _run (env : Env) (self : Builder) (dst : string) (srcs : list string)
    (includes libs pre_flags flags : list string) (debug : bool)
    (buildroot : option string) : error + string :=
  if bool_decide (srcs = [] ∧ libs = []) then inl AssertionError
  else
    let dst := make_path env dst buildroot in
    match execute env (run_command env self dst srcs includes libs pre_flags flags debug) with
    | Some e => inl e
    | None => inr dst
    end.






(** [_link], [link_lib] and [link_exe] *)
Definition _link (env : Env) (self : Builder) (dst : string) (srcs : list string)
    (includes libs pre_flags flags : list string) (debug : bool)
    (buildroot : option string) : error + string :=
  let srcs := glob_paths env srcs in
  _run env self dst srcs includes libs pre_flags flags debug buildroot.

Definition link_lib (env : Env) (self : Builder) (dst : string) (srcs : list string)
    (includes libs flags : list string) (debug : bool)
    (buildroot : option string) : error + string :=
  _link env self (dst +:+ lib_suffix self) srcs includes libs ["-a"] flags debug buildroot.

Definition link_exe (env : Env) (self : Builder) (dst : string) (srcs : list string)
    (includes libs flags : list string) (debug : bool)
    (buildroot : option string) : error + string :=
  _link env self (dst +:+ exe_suffix self) srcs includes libs [] flags debug buildroot.

End OcamlBuilder.

(** ** Integer type aliases: [builders/c/std.py] *)

Module CStd.

(** [default_types_int] *)
Definition default_types_int : list string :=
  prefix ← ["" ; "signed " ; "unsigned "];
  typename ← ["char"; "short"; "int"; "long"; "long long"];
  [prefix +:+ typename].

(** The dictionary [get_type_data] returns for a type: ['signed'] is there
    for the types probed as integers only. *)
Record type_data : Type := mkTypeData {
  alignment : Z;
  size : Z;
  signed : option bool
}.

(** [types_int(conf)], with [types] for [conf.std.types]. *)
Definition types_int (types : gmap string type_data) : list string :=
  filter (λ t, is_Some (types !! t)) default_types_int.

(** One turn of the loop of [type_aliases_int]:
    [d.setdefault((data['size'], data['signed']), t)]. *)
Definition add_alias (types : gmap string type_data)
    (d : res (gmap (Z * bool) string)) (t : string) : res (gmap (Z * bool) string) :=
  res_bind d (λ d,
    match types !! t with
    | None => Raise KeyError
    | Some data =>
        match signed data with
        | None => Raise KeyError
        | Some sg =>
            match d !! (size data, sg) with
            | Some _ => Ok d
            | None => Ok (<[(size data, sg) := t]> d)
            end
        end
    end).

(** [type_aliases_int] *)
Definition type_aliases_int (types : gmap string type_data)
    : res (gmap (Z * bool) string) :=
  foldl (add_alias types) (Ok ∅) (types_int types).

(** The first type of a list that has the given size and signedness. *)
Fixpoint first_with (types : gmap string type_data) (sz : Z) (sg : bool)
    (ts : list string) : option string :=
  match ts with
  | [] => None
  | t :: ts =>
      match types !! t with
      | Some data =>
          if bool_decide (size data = sz ∧ signed data = Some sg) then Some t
          else first_with types sz sg ts
      | None => first_with types sz sg ts
      end
  end.

End CStd.

(** * Properties *)

(** ** Strings *)

Lemma append_cons (c : ascii) (s t : string) : String c s +:+ t = String c (s +:+ t).
Proof. reflexivity. Qed.

Lemma append_length (s t : string) :
  String.length (s +:+ t) = (String.length s + String.length t)%nat.
Proof.
  induction s as [|c s IH]; [done|].
  rewrite append_cons. simpl. by rewrite IH.
Qed.

Lemma append_suffix_ne (s t : string) : t ≠ "" → s +:+ t ≠ s.
Proof.
  intros Ht Heq. apply (f_equal String.length) in Heq.
  rewrite append_length in Heq. destruct t; [done|]. simpl in Heq. lia.
Qed.

Lemma append_cancel (s t u : string) : s +:+ t = s +:+ u → t = u.
Proof.
  induction s as [|c s IH]; [done|].
  rewrite !append_cons. intros [= H]. auto.
Qed.

Lemma append_assoc (s t u : string) : (s +:+ t) +:+ u = s +:+ (t +:+ u).
Proof.
  induction s as [|c s IH]; [done|].
  rewrite !append_cons. by rewrite IH.
Qed.

Lemma append_empty_r (s : string) : s +:+ "" = s.
Proof.
  induction s as [|c s IH]; [done|].
  rewrite append_cons. by rewrite IH.
Qed.

(** ** The store *)

Section StoreProps.
Import PickleBackend StoreOps.
Context {Value Result Mtime : Type} `{!EqDecision Value}.
Implicit Types (self : Store Value Result Mtime).
Implicit Types (cf : gmap string (gmap string (gmap Z string))).

(** What [delete_function] leaves of [_call_files] under a path. *)
Lemma lookup_purge_call_files fun_name cf p :
  purge_call_files fun_name cf !! p =
    match cf !! p with
    | Some by_fun =>
        if decide (delete fun_name by_fun = ∅) then None
        else Some (delete fun_name by_fun)
    | None => None
    end.
Proof.
  unfold purge_call_files.
  set (cf1 := delete fun_name <$> cf).
  assert (Hcf1 : cf1 !! p = delete fun_name <$> cf !! p)
    by (unfold cf1; apply lookup_fmap).
  destruct (cf !! p) as [by_fun|] eqn:Hp; simpl in Hcf1.
  - destruct (decide (delete fun_name by_fun = ∅)) as [He|Hne].
    + apply lookup_foldr_delete.
      apply list_elem_of_fmap. exists (p, delete fun_name by_fun).
      split; [done|]. apply list_elem_of_filter. split; [done|].
      by apply elem_of_map_to_list.
    + rewrite lookup_foldr_delete_not_elem_of; [done|].
      intros Hin. apply list_elem_of_fmap in Hin as [[q m] [-> Hin]].
      apply list_elem_of_filter in Hin as [Hm Hin].
      apply elem_of_map_to_list in Hin. simpl in *. congruence.
  - destruct (decide (p ∈ (filter (λ kv : string * gmap string (gmap Z string), kv.2 = ∅)
                                (map_to_list cf1)).*1)).
    + by apply lookup_foldr_delete.
    + by rewrite lookup_foldr_delete_not_elem_of.
Qed.

Lemma purge_call_files_name fun_name cf p by_fun :
  purge_call_files fun_name cf !! p = Some by_fun → by_fun !! fun_name = None.
Proof.
  rewrite lookup_purge_call_files.
  destruct (cf !! p) as [m|]; [|done].
  destruct (decide _); [done|]. intros [= <-]. apply lookup_delete_eq.
Qed.

Lemma purge_call_files_other fun_name cf p g :
  g ≠ fun_name →
  purge_call_files fun_name cf !! p ≫= (.!! g) = cf !! p ≫= (.!! g).
Proof.
  intros Hg. rewrite lookup_purge_call_files.
  destruct (cf !! p) as [m|]; [|done]. simpl.
  destruct (decide _) as [He|Hne]; simpl.
  - symmetry. rewrite <- (lookup_delete_ne m fun_name g) by done.
    rewrite He. apply lookup_empty.
  - by apply lookup_delete_ne.
Qed.

Lemma purge_call_files_nonempty fun_name cf p by_fun :
  purge_call_files fun_name cf !! p = Some by_fun → by_fun ≠ ∅.
Proof.
  rewrite lookup_purge_call_files.
  destruct (cf !! p) as [m|]; [|done].
  destruct (decide _); [done|]. by intros [= <-].
Qed.

(** Purging a name that occurs nowhere only drops the paths kept with an
    empty dictionary. *)
Lemma purge_call_files_absent fun_name cf :
  (∀ p by_fun, cf !! p = Some by_fun → by_fun !! fun_name = None) →
  (∀ p f, purge_call_files fun_name cf !! p ≫= (.!! f) = cf !! p ≫= (.!! f)) ∧
  ((∀ p by_fun, cf !! p = Some by_fun → by_fun ≠ ∅) →
   purge_call_files fun_name cf = cf).
Proof.
  intros Habs.
  assert (Hid : ∀ p by_fun, cf !! p = Some by_fun → delete fun_name by_fun = by_fun).
  { intros p m Hp. apply delete_id. eauto. }
  split.
  - intros p f. rewrite lookup_purge_call_files.
    destruct (cf !! p) as [m|] eqn:Hp; [|done].
    rewrite (Hid _ _ Hp). destruct (decide _) as [->|]; [|done].
    simpl. by rewrite lookup_empty.
  - intros Hne. apply map_eq. intros p. rewrite lookup_purge_call_files.
    destruct (cf !! p) as [m|] eqn:Hp; [|done].
    rewrite (Hid _ _ Hp). destruct (decide _) as [->|]; [|done].
    by destruct (Hne _ _ Hp).
Qed.

Lemma find_call_file_lookup self i f p :
  find_call_file self i f p = (_call_files self !! p ≫= (.!! f)) ≫= (.!! i).
Proof.
  unfold find_call_file.
  destruct (_call_files self !! p) as [m|]; [|done]; simpl.
  destruct (m !! f) as [m'|]; [|done]; simpl.
  by destruct (m' !! i).
Qed.

(** [save_call] touches the list of calls of its function only. *)
Lemma save_call_frame self name call_id bound result i self' :
  save_call self name call_id bound result = Ok (i, self') →
  _functions self' = _functions self ∧
  _files self' = _files self ∧
  _call_files self' = _call_files self ∧
  _external_srcs self' = _external_srcs self ∧
  _external_dsts self' = _external_dsts self ∧
  ∀ g, g ≠ name → _function_calls self' !! g = _function_calls self !! g.
Proof.
  unfold save_call.
  destruct (_function_calls self !! name) as [datas|].
  - destruct call_id as [k|].
    + destruct (py_setitem datas k (bound, result)) as [datas'|e]; simpl; [|done].
      intros [= <- <-]. simpl. repeat split; try done.
      intros g Hg. by rewrite lookup_insert_ne.
    + intros [= <- <-]. simpl. repeat split; try done.
      intros g Hg. by rewrite lookup_insert_ne.
  - intros [= <- <-]. simpl. repeat split; try done.
    intros g Hg. by rewrite lookup_insert_ne.
Qed.

Lemma save_call_files_files self i f ds :
  _files (save_call_files self i f ds) = _files self.
Proof.
  unfold save_call_files. revert self.
  induction ds as [|[p d] ds IH]; intros self; simpl; [done|].
  by rewrite IH.
Qed.

Lemma no_empty_save_call_file self i f p d :
  no_empty_call_files self → no_empty_call_files (save_call_file self i f p d).
Proof.
  intros Hne q m. unfold save_call_file. simpl.
  destruct (decide (p = q)) as [->|Hpq].
  - rewrite lookup_insert_eq. intros [= <-]. apply insert_non_empty.
  - rewrite lookup_insert_ne by done. apply Hne.
Qed.

Lemma no_empty_save_call_files self i f ds :
  no_empty_call_files self → no_empty_call_files (save_call_files self i f ds).
Proof.
  unfold save_call_files. revert self.
  induction ds as [|[p d] ds IH]; intros self Hne; simpl; [done|].
  apply IH. by apply no_empty_save_call_file.
Qed.

Lemma no_empty_apply self o self' :
  no_empty_call_files self → apply self o = Ok self' → no_empty_call_files self'.
Proof.
  intros Hne. destruct o; simpl.
  - intros [= <-] p m. simpl. apply purge_call_files_nonempty.
  - intros [= <-] p m. simpl. apply purge_call_files_nonempty.
  - destruct (save_call self fun_name call_id bound result) as [[i s]|e] eqn:Hs;
      simpl; [|done].
    intros [= <-]. apply save_call_frame in Hs as (_ & _ & Hcf & _).
    unfold no_empty_call_files. by rewrite Hcf.
  - intros [= <-]. by apply no_empty_save_call_file.
  - intros [= <-]. unfold save_external_files. by apply no_empty_save_call_files.
  - by intros [= <-].
  - intros [= <-] p m. simpl. intros Hp.
    apply lookup_delete_Some in Hp as [_ Hp]. by apply (Hne p).
Qed.

Lemma reachable_no_empty_call_files self :
  reachable self → no_empty_call_files self.
Proof.
  induction 1 as [|self o self' _ IH Hstep].
  - intros p m. simpl. by rewrite lookup_empty.
  - by apply (no_empty_apply self o).
Qed.

(** C2. After [save_function(name, digest)], [find_function(name)] is
    [digest]; no list of calls, no set of external sources or
    destinations and no call-file entry of [name] is left (and the
    queries for [name] find nothing); every record of another function
    name, and the file relation, are as before. *)
Theorem save_function_purges self name digest :
  let self' := save_function self name digest in
  find_function self' name = Some digest ∧
  _function_calls self' !! name = None ∧
  _external_srcs self' !! name = None ∧
  _external_dsts self' !! name = None ∧
  (∀ p by_fun, _call_files self' !! p = Some by_fun → by_fun !! name = None) ∧
  (∀ bound, find_call self' name bound = (None, None)) ∧
  (∀ i, find_external_srcs self' i name = ∅ ∧ find_external_dsts self' i name = ∅) ∧
  (∀ i p, find_call_file self' i name p = None) ∧
  (∀ g, g ≠ name →
     find_function self' g = find_function self g ∧
     _function_calls self' !! g = _function_calls self !! g ∧
     _external_srcs self' !! g = _external_srcs self !! g ∧
     _external_dsts self' !! g = _external_dsts self !! g ∧
     (∀ p, _call_files self' !! p ≫= (.!! g) = _call_files self !! p ≫= (.!! g)) ∧
     (∀ i p, find_call_file self' i g p = find_call_file self i g p)) ∧
  _files self' = _files self.
Proof.
  simpl. unfold find_function, find_call, find_external_srcs, find_external_dsts.
  simpl. rewrite !lookup_insert_eq, !lookup_delete_eq.
  repeat split; try done.
  - intros p by_fun. apply purge_call_files_name.
  - intros i p. rewrite find_call_file_lookup. simpl.
    destruct (purge_call_files name (_call_files self) !! p) as [m|] eqn:Hp; [|done].
    simpl. by rewrite (purge_call_files_name _ _ _ _ Hp).
  - by rewrite lookup_insert_ne, lookup_delete_ne.
  - by rewrite lookup_delete_ne.
  - by rewrite lookup_delete_ne.
  - by rewrite lookup_delete_ne.
  - intros p. by apply purge_call_files_other.
  - intros i p. rewrite !find_call_file_lookup. simpl.
    by rewrite purge_call_files_other.
Qed.

(** C10, as the code deletes. A key that its relation does not hold is
    found absent: [find_function] gives [None], [find_call] gives
    [(None, None)], [find_call_file] gives [None], [find_external_srcs]
    and [find_external_dsts] give the empty set, [find_file] gives
    [(None, None)]. The deletions clear a key from every relation that
    holds it, so they leave the store as it is only for a key that none
    of the relations they clear holds: then [delete_function] and
    [delete_file] return the store with the same relations, and the very
    same store when no path of [_call_files] is kept with an empty
    dictionary, which is so in every reachable store. *)
Theorem absent_keys_total self :
  (∀ name, _functions self !! name = None → find_function self name = None) ∧
  (∀ name bound, _function_calls self !! name = None →
     find_call self name bound = (None, None)) ∧
  (∀ i name p, _call_files self !! p = None → find_call_file self i name p = None) ∧
  (∀ i name p by_fun, _call_files self !! p = Some by_fun → by_fun !! name = None →
     find_call_file self i name p = None) ∧
  (∀ i name p by_fun by_id, _call_files self !! p = Some by_fun →
     by_fun !! name = Some by_id → by_id !! i = None →
     find_call_file self i name p = None) ∧
  (∀ i name, _external_srcs self !! name = None → find_external_srcs self i name = ∅) ∧
  (∀ i name by_id, _external_srcs self !! name = Some by_id → by_id !! i = None →
     find_external_srcs self i name = ∅) ∧
  (∀ i name, _external_dsts self !! name = None → find_external_dsts self i name = ∅) ∧
  (∀ i name by_id, _external_dsts self !! name = Some by_id → by_id !! i = None →
     find_external_dsts self i name = ∅) ∧
  (∀ p, _files self !! p = None → find_file self p = (None, None)) ∧
  (∀ name, function_absent self name →
     same_relations (delete_function self name) self ∧
     (no_empty_call_files self → delete_function self name = self)) ∧
  (∀ p, file_absent self p → delete_file self p = self) ∧
  (reachable self → no_empty_call_files self).
Proof.
  unfold find_function, find_call, find_external_srcs, find_external_dsts, find_file.
  split_and!.
  - by intros name ->.
  - by intros name bound ->.
  - intros i name p Hp. by rewrite find_call_file_lookup, Hp.
  - intros i name p m Hp Hn. rewrite find_call_file_lookup, Hp. simpl. by rewrite Hn.
  - intros i name p m m' Hp Hn Hi. rewrite find_call_file_lookup, Hp. simpl.
    rewrite Hn. simpl. by rewrite Hi.
  - by intros i name ->.
  - intros i name m -> Hi. by rewrite Hi.
  - by intros i name ->.
  - intros i name m -> Hi. by rewrite Hi.
  - by intros p ->.
  - intros name (Hf & Hc & Hs & Hd & Hcf). split.
    + unfold same_relations. simpl. rewrite !delete_id by done.
      split_and!; try done. by apply purge_call_files_absent.
    + intros Hne. destruct self as [fs cs fl cf es ed].
      unfold delete_function. simpl in *.
      f_equal; try by apply delete_id.
      by apply purge_call_files_absent.
  - intros p [Hf Hc]. destruct self as [fs cs fl cf es ed].
    unfold delete_file. simpl in *. f_equal; by apply delete_id.
  - apply reachable_no_empty_call_files.
Qed.

(** *** Python indexing *)

Lemma py_index_lt n i k : py_index n i = Some k → (k < n)%nat.
Proof.
  unfold py_index. repeat case_bool_decide; intros [= <-]; lia.
Qed.

Lemma py_index_nonneg n i : 0 ≤ i < Z.of_nat n → py_index n i = Some (Z.to_nat i).
Proof. intros Hi. unfold py_index. by rewrite bool_decide_eq_true_2. Qed.

Lemma py_index_out n i : ¬ (- Z.of_nat n ≤ i < Z.of_nat n) → py_index n i = None.
Proof.
  intros Hi. unfold py_index.
  rewrite bool_decide_eq_false_2 by lia.
  by rewrite bool_decide_eq_false_2 by lia.
Qed.

Lemma py_getitem_setitem {A} (l l' : list A) i x :
  py_setitem l i x = Ok l' → py_getitem l' i = Ok x.
Proof.
  unfold py_setitem, py_getitem.
  destruct (py_index (length l) i) as [k|] eqn:Hk; [|done].
  intros [= <-]. rewrite length_insert, Hk.
  rewrite list_lookup_insert_eq; [done|]. by eapply py_index_lt.
Qed.

Lemma py_getitem_last {A} (l : list A) x :
  py_getitem (l ++ [x]) (Z.of_nat (length l)) = Ok x.
Proof.
  unfold py_getitem. rewrite py_index_nonneg.
  - rewrite Nat2Z.id, lookup_app_r, Nat.sub_diag; done.
  - rewrite length_app. simpl. lia.
Qed.

(** *** The scan of [find_call] *)

Lemma scan_calls_hit bound k (datas : list (gmap string Value * Result)) i r :
  datas !! i = Some (bound, r) →
  (∀ j b r', (j < i)%nat → datas !! j = Some (b, r') → b ≠ bound) →
  scan_calls bound k datas = (Some (k + Z.of_nat i), Some r).
Proof.
  revert k i. induction datas as [|[b0 r0] datas IH]; intros k i Hi Hmin; [done|].
  simpl. destruct i as [|i]; simpl in Hi.
  - injection Hi as -> ->. rewrite decide_True by done. do 2 f_equal. lia.
  - rewrite decide_False.
    + rewrite (IH (k + 1) i Hi).
      * do 2 f_equal. lia.
      * intros j b r' Hj. apply (Hmin (S j)). lia.
    + intros Heq. apply (Hmin 0%nat b0 r0); [lia|done|done].
Qed.

Lemma scan_calls_miss bound k (datas : list (gmap string Value * Result)) :
  (∀ j b r', datas !! j = Some (b, r') → b ≠ bound) →
  scan_calls bound k datas = (None, None).
Proof.
  revert k. induction datas as [|[b0 r0] datas IH]; intros k Hall; [done|].
  simpl. rewrite decide_False.
  - apply IH. intros j. apply (Hall (S j)).
  - intros Heq. by apply (Hall 0%nat b0 r0).
Qed.

(** The scan either finds a first equal [bound] or there is none. *)
Lemma scan_calls_cases bound (datas : list (gmap string Value * Result)) :
  (∀ j b r', datas !! j = Some (b, r') → b ≠ bound) ∨
  (∃ i r, datas !! i = Some (bound, r) ∧
          ∀ j b r', (j < i)%nat → datas !! j = Some (b, r') → b ≠ bound).
Proof.
  induction datas as [|[b0 r0] datas IH].
  - left. intros j b r'. by rewrite lookup_nil.
  - destruct (decide (b0 = bound)) as [->|Hne].
    + right. exists 0%nat, r0. split; [done|]. intros j b r' Hj. lia.
    + destruct IH as [Hall|(i & r & Hi & Hmin)].
      * left. intros [|j] b r'; simpl; [by intros [= <- <-]|apply Hall].
      * right. exists (S i), r. split; [done|].
        intros [|j] b r' Hj; simpl; [by intros [= <- <-]|].
        apply Hmin. lia.
Qed.

(** C3. [find_call(name, bound)] returns [(i, result)] for the lowest
    index [i] of [name]'s list of calls whose bound arguments equal
    [bound], with the result kept at that index, and [(None, None)]
    when [name] has no list or no pair of the list has equal bound
    arguments; it always returns one or the other. *)
Theorem find_call_lowest_match self name bound :
  (∀ datas i r,
     _function_calls self !! name = Some datas →
     datas !! i = Some (bound, r) →
     (∀ j b r', (j < i)%nat → datas !! j = Some (b, r') → b ≠ bound) →
     find_call self name bound = (Some (Z.of_nat i), Some r)) ∧
  (_function_calls self !! name = None →
     find_call self name bound = (None, None)) ∧
  (∀ datas,
     _function_calls self !! name = Some datas →
     (∀ j b r', datas !! j = Some (b, r') → b ≠ bound) →
     find_call self name bound = (None, None)) ∧
  (find_call self name bound = (None, None) ∨
   ∃ datas i r,
     _function_calls self !! name = Some datas ∧
     datas !! i = Some (bound, r) ∧
     (∀ j b r', (j < i)%nat → datas !! j = Some (b, r') → b ≠ bound) ∧
     find_call self name bound = (Some (Z.of_nat i), Some r)).
Proof.
  unfold find_call. split_and!.
  - intros datas i r -> Hi Hmin. by rewrite (scan_calls_hit _ 0 _ i r).
  - by intros ->.
  - intros datas -> Hall. by apply scan_calls_miss.
  - destruct (_function_calls self !! name) as [datas|]; [|by left].
    destruct (scan_calls_cases bound datas) as [Hall|(i & r & Hi & Hmin)].
    + left. by apply scan_calls_miss.
    + right. exists datas, i, r. split_and!; try done.
      by rewrite (scan_calls_hit _ 0 _ i r).
Qed.

(** C4. [save_call(name, id, bound, result)]: when [name] has no list of
    calls, a list holding just the pair is made and 0 is returned, whatever
    [id] is; when it has one, the pair is appended if [id] is [None]
    and written over position [id] if [id] is an index of the list (any
    other integer is an [IndexError]). Whenever it returns, the returned
    id is an index at which [name]'s list now holds the pair. *)
Theorem save_call_effective_id self name call_id bound result :
  (_function_calls self !! name = None →
     ∃ self', save_call self name call_id bound result = Ok (0, self') ∧
       _function_calls self' !! name = Some [(bound, result)]) ∧
  (∀ datas, _function_calls self !! name = Some datas → call_id = None →
     ∃ self', save_call self name call_id bound result
                = Ok (Z.of_nat (length datas), self') ∧
       _function_calls self' !! name = Some (datas ++ [(bound, result)])) ∧
  (∀ datas i, _function_calls self !! name = Some datas → call_id = Some i →
     0 ≤ i < Z.of_nat (length datas) →
     ∃ self', save_call self name call_id bound result = Ok (i, self') ∧
       _function_calls self' !! name
         = Some (<[Z.to_nat i := (bound, result)]> datas)) ∧
  (∀ datas i, _function_calls self !! name = Some datas → call_id = Some i →
     ¬ (- Z.of_nat (length datas) ≤ i < Z.of_nat (length datas)) →
     save_call self name call_id bound result = Raise IndexError) ∧
  (∀ i self', save_call self name call_id bound result = Ok (i, self') →
     ∃ datas', _function_calls self' !! name = Some datas' ∧
       py_getitem datas' i = Ok (bound, result)).
Proof.
  unfold save_call. split_and!.
  - intros ->. eexists. split; [done|]. simpl. apply lookup_insert_eq.
  - intros datas -> ->. eexists. split.
    + do 2 f_equal. rewrite length_app. simpl. lia.
    + simpl. apply lookup_insert_eq.
  - intros datas i -> -> Hi. unfold py_setitem. rewrite py_index_nonneg by done.
    simpl. eexists. split; [done|]. simpl. apply lookup_insert_eq.
  - intros datas i -> -> Hi. unfold py_setitem. by rewrite py_index_out.
  - intros i self'. destruct (_function_calls self !! name) as [datas|].
    + destruct call_id as [k|].
      * destruct (py_setitem datas k (bound, result)) as [datas'|e] eqn:Hset;
          simpl; [|done].
        intros [= <- <-]. exists datas'. simpl. rewrite lookup_insert_eq.
        split; [done|]. by eapply py_getitem_setitem.
      * intros [= <- <-]. eexists. simpl. rewrite lookup_insert_eq.
        split; [done|].
        replace (Z.of_nat (length (datas ++ [(bound, result)])) - 1)
          with (Z.of_nat (length datas)) by (rewrite length_app; simpl; lia).
        apply py_getitem_last.
    + intros [= <- <-]. eexists. simpl. rewrite lookup_insert_eq. done.
Qed.

(** C5. When no recorded call of [name] has bound arguments equal to
    [bound], [save_call(name, None, bound, result)] returns an id [i], and
    [find_call(name, bound)] on the store it leaves returns
    [(i, result)]. *)
Theorem save_call_find_call self name bound result :
  (∀ datas j b r, _function_calls self !! name = Some datas →
     datas !! j = Some (b, r) → b ≠ bound) →
  ∃ i self',
    save_call self name None bound result = Ok (i, self') ∧
    find_call self' name bound = (Some i, Some result).
Proof.
  intros Hfresh. unfold save_call.
  destruct (_function_calls self !! name) as [datas|] eqn:Hn.
  - eexists _, _. split; [done|].
    unfold find_call. simpl. rewrite lookup_insert_eq.
    rewrite (scan_calls_hit bound 0 _ (length datas) result).
    + do 2 f_equal. rewrite length_app. simpl. lia.
    + by rewrite lookup_app_r, Nat.sub_diag.
    + intros j b r' Hj Hl. rewrite lookup_app_l in Hl by done.
      by apply (Hfresh datas j b r').
  - eexists _, _. split; [done|].
    unfold find_call. simpl. rewrite lookup_insert_eq. simpl.
    by rewrite decide_True.
Qed.

(** *** Call files and file records *)

Lemma save_call_files_paths self i f ds :
  (∀ p d, (p, d) ∈ ds → is_Some (_files self !! p)) →
  (∀ p, is_Some (_call_files self !! p) → is_Some (_files self !! p)) →
  ∀ p, is_Some (_call_files (save_call_files self i f ds) !! p) →
       is_Some (_files (save_call_files self i f ds) !! p).
Proof.
  unfold save_call_files. revert self.
  induction ds as [|[q d] ds IH]; intros self Hds Hinv; simpl; [done|].
  apply IH.
  - intros p d' Hin. simpl. apply (Hds p d'). by right.
  - intros p. simpl. destruct (decide (q = p)) as [->|Hqp].
    + intros _. apply (Hds p d). by left.
    + rewrite lookup_insert_ne by done. apply Hinv.
Qed.

Lemma recording_step_paths self o self' :
  records_known_digests self o → apply self o = Ok self' →
  (∀ p, is_Some (_call_files self !! p) → is_Some (_files self !! p)) →
  ∀ p, is_Some (_call_files self' !! p) → is_Some (_files self' !! p).
Proof.
  intros Hrec Hstep Hinv. destruct o; simpl in Hstep, Hrec.
  - injection Hstep as <-. intros p [m Hp]. simpl in *. apply Hinv.
    rewrite lookup_purge_call_files in Hp.
    by destruct (_call_files self !! p).
  - injection Hstep as <-. intros p [m Hp]. simpl in *. apply Hinv.
    rewrite lookup_purge_call_files in Hp.
    by destruct (_call_files self !! p).
  - destruct (save_call self fun_name call_id bound result) as [[i s]|e] eqn:Hs;
      simpl in Hstep; [|done].
    injection Hstep as <-.
    apply save_call_frame in Hs as (_ & -> & -> & _). done.
  - injection Hstep as <-. intros p. simpl.
    destruct (decide (file_name = p)) as [->|Hne].
    + intros _. destruct Hrec as [m Hm]. by rewrite Hm.
    + rewrite lookup_insert_ne by done. apply Hinv.
  - injection Hstep as <-. unfold save_external_files.
    apply save_call_files_paths; simpl; [|done].
    intros p d Hin. destruct (Hrec p d Hin) as [m Hm]. by rewrite Hm.
  - injection Hstep as <-. intros p Hp. simpl in *.
    apply lookup_insert_is_Some'. right. by apply Hinv.
  - injection Hstep as <-. intros p. simpl.
    destruct (decide (file_name = p)) as [->|Hne].
    + rewrite lookup_delete_eq. by intros [? ?].
    + rewrite !lookup_delete_ne by done. apply Hinv.
Qed.

Lemma reachable_recording_paths self :
  reachable_recording self →
  ∀ p, is_Some (_call_files self !! p) → is_Some (_files self !! p).
Proof.
  induction 1 as [|self o self' _ IH Hrec Hstep].
  - intros p. simpl. rewrite lookup_empty. by intros [? ?].
  - by apply (recording_step_paths self o).
Qed.

(** C6, as the store keeps it. In every state reached by operations
    that record a call-file digest for a path only while the file
    relation holds that digest for the path, every entry
    [(p, f, i) → d] of the call-file relation has a file record
    [(mtime, d')] for [p]; and recording [(p, f, i) → d] in such a state
    leaves the file record of [p] with [d' = d]. *)
Theorem recorded_call_files_have_file self :
  reachable_recording self →
  call_files_have_file self ∧
  ∀ i f p d, file_has_digest self p d →
    find_call_file (save_call_file self i f p d) i f p = Some d ∧
    file_has_digest (save_call_file self i f p d) p d.
Proof.
  intros Hreach. split.
  - intros p f i d Hd.
    destruct (reachable_recording_paths self Hreach p) as [[m d'] Hm].
    + rewrite find_call_file_lookup in Hd.
      destruct (_call_files self !! p); [done|discriminate].
    + by exists m, d'.
  - intros i f p d Hfile. split; [|done].
    rewrite find_call_file_lookup. simpl.
    rewrite lookup_insert_eq. simpl. rewrite lookup_insert_eq. simpl.
    apply lookup_insert_eq.
Qed.

End StoreProps.

(** ** The commit of [save] *)

(** The three names of a commit are different. *)
Lemma commit_names (filename : string) :
  filename +:+ ".tmp" ≠ filename ∧ filename +:+ ".old" ≠ filename ∧
  filename +:+ ".tmp" ≠ filename +:+ ".old".
Proof.
  split_and!.
  - by apply append_suffix_ne.
  - by apply append_suffix_ne.
  - intros H. by apply append_cancel in H.
Qed.

(** Runs the file-system operations of the goal, with what the
    hypotheses say of the files and of the permissions. *)
Ltac fs_step :=
  first
    [ rewrite lookup_insert_eq
    | rewrite lookup_delete_eq
    | rewrite lookup_insert_ne by done
    | rewrite lookup_delete_ne by done
    | rewrite bool_decide_eq_true_2 by eauto
    | rewrite bool_decide_eq_false_2 by (by intros [? ?])
    | match goal with H : _ = Some _ |- _ => rewrite H end
    | match goal with H : _ = None |- _ => rewrite H end
    | match goal with H : _ = true |- _ => rewrite H end
    | match goal with H : _ = false |- _ => rewrite H end ];
  cbn [Fs.files Fs.trace Fs.permitted forallb app andb orb negb].

Ltac fs_unfold :=
  unfold mbind, Fs_bind, Fs.bind, Fs.write_file, Fs.path_exists, Fs.when,
    Fs.rename, Fs.remove, Fs.ret;
  cbn [Fs.files Fs.trace Fs.permitted forallb app andb orb negb].

Section SaveProps.
Import PickleBackend.
Context {Value Result Mtime : Type}.
Variable pickle :
  gmap string string * gmap string (list (gmap string Value * Result)) *
  gmap string (Mtime * string) * gmap string (gmap string (gmap Z string)) *
  gmap string (gmap Z (gset string)) * gmap string (gmap Z (gset string))
  → Fs.bytes.

(** What [save] does, in full: it completes exactly when each step of the
    commit is permitted, and then leaves the committed files and the
    steps on the trace. *)
Lemma save_result (self : Store Value Result Mtime) (filename : string) (σ : Fs.state) :
  let s := pickle (_functions self, _function_calls self, _files self,
                   _call_files self, _external_srcs self, _external_dsts self) in
  save pickle self filename σ =
    if forallb (Fs.permitted σ) (Commit.steps s filename σ)
    then Ok (tt, Fs.mkState (Commit.committed s filename σ)
                            (Fs.trace σ ++ Commit.steps s filename σ)
                            (Fs.permitted σ))
    else Raise OSError.
Proof.
  intros s.
  destruct (commit_names filename) as (Htmp & Hold & Hto).
  assert (Htmp' : filename ≠ filename +:+ ".tmp") by done.
  assert (Hold' : filename ≠ filename +:+ ".old") by done.
  assert (Hto' : filename +:+ ".old" ≠ filename +:+ ".tmp") by done.
  unfold save, dumps, Commit.steps, Commit.committed. fold s.
  destruct (Fs.files σ !! filename) as [c|] eqn:Hpath;
    destruct (Fs.files σ !! (filename +:+ ".old")) as [c'|] eqn:Holdf;
    destruct (Fs.permitted σ (Fs.Write (filename +:+ ".tmp") s)) eqn:Hw;
    destruct (Fs.permitted σ (Fs.Rename filename (filename +:+ ".old"))) eqn:Hr1;
    destruct (Fs.permitted σ (Fs.Rename (filename +:+ ".tmp") filename)) eqn:Hr2;
    destruct (Fs.permitted σ (Fs.Remove (filename +:+ ".old"))) eqn:Hrm;
    fs_unfold; repeat fs_step; try reflexivity;
    (do 2 f_equal; f_equal; [|by rewrite <- ?app_assoc]);
    apply map_eq; intros q;
    (destruct (decide (q = filename)) as [Hq1|Hq1]; [subst q; by repeat fs_step|]);
    (destruct (decide (q = filename +:+ ".tmp")) as [Hq2|Hq2];
       [subst q; by repeat fs_step|]);
    (destruct (decide (q = filename +:+ ".old")) as [Hq3|Hq3];
       [subst q; by repeat fs_step|]);
    by repeat fs_step.
Qed.

(** C1. A [save(filename)] that completes has done these steps, in this
    order: written the pickle of the six relations, as a tuple in the
    order functions, function calls, files, call files, external
    sources, external destinations, to [filename.tmp]; renamed
    [filename], if there was one, to [filename.old]; renamed
    [filename.tmp] to [filename]; removed [filename.old] if there was
    one then. Afterwards [filename] holds that pickle, neither
    [filename.tmp] nor [filename.old] is there, and every other file is
    as before. It completes whenever the file system permits each of
    these steps, and raises when it may not write [filename.tmp]. *)
Theorem save_commits (self : Store Value Result Mtime) (filename : string)
    (σ : Fs.state) :
  let s := pickle (_functions self, _function_calls self, _files self,
                   _call_files self, _external_srcs self, _external_dsts self) in
  let tmp := filename +:+ ".tmp" in
  let old := filename +:+ ".old" in
  let had_path := bool_decide (is_Some (Fs.files σ !! filename)) in
  let had_old := bool_decide (is_Some (Fs.files σ !! old)) in
  let steps :=
    [Fs.Write tmp s]
    ++ (if had_path then [Fs.Rename filename old] else [])
    ++ [Fs.Rename tmp filename]
    ++ (if had_path || had_old then [Fs.Remove old] else []) in
  (∀ σ', save pickle self filename σ = Ok (tt, σ') →
     Fs.files σ' !! filename = Some s ∧
     Fs.files σ' !! tmp = None ∧
     Fs.files σ' !! old = None ∧
     (∀ q, q ≠ filename → q ≠ tmp → q ≠ old →
        Fs.files σ' !! q = Fs.files σ !! q) ∧
     Fs.trace σ' = Fs.trace σ ++ steps) ∧
  ((∀ o, o ∈ steps → Fs.permitted σ o = true) →
     ∃ σ', save pickle self filename σ = Ok (tt, σ')) ∧
  (Fs.permitted σ (Fs.Write tmp s) = false →
     save pickle self filename σ = Raise OSError).
Proof.
  intros s tmp old had_path had_old steps.
  destruct (commit_names filename) as (Htmp & Hold & Hto).
  pose proof (save_result self filename σ) as Hrun. cbn zeta in Hrun.
  fold s in Hrun. change (Commit.steps s filename σ) with steps in Hrun.
  split_and!.
  - intros σ' Hsave. rewrite Hrun in Hsave.
    destruct (forallb (Fs.permitted σ) steps); [|done].
    injection Hsave as <-. cbn [Fs.files Fs.trace]. unfold Commit.committed.
    fold tmp old. split_and!; try done.
    + apply lookup_insert_eq.
    + rewrite lookup_insert_ne by done. apply lookup_delete_eq.
    + rewrite lookup_insert_ne by done. rewrite lookup_delete_ne by done.
      apply lookup_delete_eq.
    + intros q Hq1 Hq2 Hq3. rewrite lookup_insert_ne by done.
      by rewrite !lookup_delete_ne by done.
  - intros Hperm. rewrite Hrun.
    assert (Hall : forallb (Fs.permitted σ) steps = true).
    { apply forallb_forall. intros o Ho. apply Hperm. by apply list_elem_of_In. }
    rewrite Hall. by eexists.
  - intros Hw. rewrite Hrun. subst steps. cbn [app forallb]. fold tmp.
    by rewrite Hw.
Qed.

End SaveProps.

(** ** The console *)

Section ConsoleProps.
Import Console CheckRuns LogScope.

Lemma spaces_length n : String.length (spaces n) = n.
Proof. induction n as [|n IH]; simpl; [done|]. by rewrite IH. Qed.

Lemma len_append s t : len (s +:+ t) = len s + len t.
Proof. unfold len. rewrite append_length. lia. Qed.

Lemma len_ljust s width : len (ljust s width) = Z.max (len s) width.
Proof.
  unfold ljust. rewrite len_append. unfold len at 2.
  rewrite spaces_length. unfold len. lia.
Qed.

(** *** What the writes keep *)

Lemma _write_maxlen env self msg color v : maxlen (_write env self msg color v) = maxlen self.
Proof. done. Qed.

Lemma write_maxlen env self msg buffer color v :
  maxlen (write env self msg buffer color v) = maxlen self.
Proof.
  unfold write. destruct (negb buffer || _); [done|].
  by destruct (buffer && _).
Qed.

Lemma write_verbose env self msg buffer color v :
  verbose (write env self msg buffer color v) = verbose self.
Proof.
  unfold write. destruct (negb buffer || _); [done|].
  by destruct (buffer && _).
Qed.

Lemma write_nocolor env self msg buffer color v :
  nocolor (write env self msg buffer color v) = nocolor self.
Proof.
  unfold write. destruct (negb buffer || _); [done|].
  by destruct (buffer && _).
Qed.

Lemma check_maxlen_eq env self msg result color v :
  maxlen (check env self msg result color v)
    = maxlen (check_maxlen self (check_msg env self msg)).
Proof.
  unfold check. destruct result; by rewrite !write_maxlen.
Qed.

Lemma check_maxlen_bounds self msg :
  maxlen self ≤ 40 →
  maxlen self ≤ maxlen (check_maxlen self msg) ≤ 40.
Proof.
  intros Hle. unfold check_maxlen. case_bool_decide; simpl; lia.
Qed.

(** *** The log file and stdout *)

Lemma _write_logfile env self msg color v :
  logfile (_write env self msg color v) = logfile self +:+ msg.
Proof. done. Qed.

Lemma _write_stdout env self msg color v :
  stdout (_write env self msg color v)
    = stdout self +:+ shown env self (msg, mkKwargs color v).
Proof.
  unfold shown. simpl. case_bool_decide; [|by rewrite append_empty_r].
  by destruct (nocolor self).
Qed.

Lemma shown_same env self self' mk :
  verbose self' = verbose self → nocolor self' = nocolor self →
  shown env self' mk = shown env self mk.
Proof. intros Hv Hn. unfold shown. by rewrite Hv, Hn. Qed.

Lemma block_shown_same env self self' msgs :
  verbose self' = verbose self → nocolor self' = nocolor self →
  block_shown env self' msgs = block_shown env self msgs.
Proof.
  intros Hv Hn. unfold block_shown.
  induction msgs as [|mk msgs IH]; simpl; [done|].
  by rewrite IH, (shown_same env self self').
Qed.

Lemma block_text_snoc msgs mk : block_text (msgs ++ [mk]) = block_text msgs +:+ mk.1.
Proof.
  unfold block_text. induction msgs as [|m msgs IH]; simpl.
  - by rewrite append_empty_r.
  - by rewrite IH, append_assoc.
Qed.

Lemma block_shown_snoc env self msgs mk :
  block_shown env self (msgs ++ [mk]) = block_shown env self msgs +:+ shown env self mk.
Proof.
  unfold block_shown. induction msgs as [|m msgs IH]; simpl.
  - by rewrite append_empty_r.
  - by rewrite IH, append_assoc.
Qed.

Lemma write_all_logfile env self msgs :
  logfile (write_all env self msgs) = logfile self +:+ block_text msgs.
Proof.
  unfold write_all. revert self.
  induction msgs as [|[m kw] msgs IH]; intros self; simpl.
  - by rewrite append_empty_r.
  - rewrite IH, _write_logfile. unfold block_text. simpl.
    by rewrite append_assoc.
Qed.

Lemma write_all_stdout env self msgs :
  stdout (write_all env self msgs) = stdout self +:+ block_shown env self msgs.
Proof.
  unfold write_all. revert self.
  induction msgs as [|[m [c v]] msgs IH]; intros self; simpl.
  - by rewrite append_empty_r.
  - rewrite IH, _write_stdout.
    rewrite (block_shown_same env self (_write env self m c v)) by done.
    unfold block_shown. simpl. by rewrite append_assoc.
Qed.

Lemma write_all_thread_stacks env self msgs :
  _thread_stacks (write_all env self msgs) = _thread_stacks self.
Proof.
  unfold write_all. revert self.
  induction msgs as [|[m kw] msgs IH]; intros self; simpl; [done|].
  by rewrite IH.
Qed.

Lemma log_from_thread_exit_logfile env self self' :
  log_from_thread_exit env self = Ok self' →
  ∃ stack msgs,
    _thread_stacks self !! current_thread env = Some (stack ++ [msgs]) ∧
    _thread_stacks self' !! current_thread env = Some stack ∧
    logfile self' = logfile self +:+ block_text msgs.
Proof.
  unfold log_from_thread_exit.
  destruct (_thread_stacks self !! current_thread env) as [stack|]; [|done].
  destruct (last stack) as [msgs|] eqn:Hlast; [|done].
  apply last_Some in Hlast as [stack' ->].
  intros [= <-]. exists stack', msgs. split; [done|].
  rewrite write_all_thread_stacks, write_all_logfile. simpl.
  rewrite lookup_insert_eq. split; [|done].
  f_equal. rewrite length_app. simpl.
  replace (length stack' + 1 - 1)%nat with (length stack') by lia.
  by rewrite take_app_length.
Qed.

(** *** The two ways of [write] *)

Lemma append_to_last_snoc {A} (stack : list (list A)) (frame : list A) (x : A) :
  append_to_last (stack ++ [frame]) x = stack ++ [frame ++ [x]].
Proof.
  induction stack as [|a stack IH]; [done|].
  simpl. rewrite IH. by destruct (stack ++ [frame]) eqn:E; [destruct stack|].
Qed.

(** One buffered [write] only adds the message to the open block. *)
Lemma write_buffered env self msg color v stack frame :
  scheduler_count env ≠ 1 →
  _thread_stacks self !! current_thread env = Some (stack ++ [frame]) →
  write env self msg true color v =
    set_thread_stacks self
      (<[current_thread env := stack ++ [frame ++ [(msg, mkKwargs color v)]]]>
         (_thread_stacks self)).
Proof.
  intros Hcount Hstack. unfold write.
  rewrite bool_decide_eq_false_2 by done. cbn [negb orb andb].
  rewrite Hstack. cbn [default].
  rewrite bool_decide_eq_false_2 by (by destruct stack).
  cbn [negb]. unfold set_thread_stacks. simpl.
  by rewrite insert_insert_eq, append_to_last_snoc.
Qed.

(** A [write] that is not buffered, or made with one scheduler thread, or
    made while the thread has no open block, writes at once. *)
Lemma write_now env self msg buffer color v :
  buffer = false ∨ scheduler_count env = 1 ∨
    default [] (_thread_stacks self !! current_thread env) = [] →
  logfile (write env self msg buffer color v) = logfile self +:+ msg ∧
  stdout (write env self msg buffer color v) = stdout (_write env self msg color v) ∧
  (no_open_block self → no_open_block (write env self msg buffer color v)).
Proof.
  intros Hnow. unfold write.
  destruct (negb buffer || bool_decide (scheduler_count env = 1)) eqn:Hb; [done|].
  apply orb_false_elim in Hb as [Hb Hc].
  apply negb_false_iff in Hb. apply bool_decide_eq_false in Hc.
  destruct Hnow as [->|[?|Hstack]]; [done..|].
  rewrite Hstack. rewrite bool_decide_eq_true_2 by done.
  rewrite andb_false_r. split_and!; [done..|].
  intros Hq t'. simpl.
  destruct (decide (t' = current_thread env)) as [->|Hne].
  - by rewrite lookup_insert_eq.
  - rewrite lookup_insert_ne by done. apply Hq.
Qed.

(** What [check] writes while the thread has no open block. *)
Lemma check_now env self msg result color v :
  no_open_block self →
  let msg' := check_msg env self msg in
  let label := check_label (check_maxlen self msg') msg' in
  no_open_block (check env self msg result color v) ∧
  logfile (check env self msg result color v) =
    logfile self +:+ label +:+
      match result with None => nl | Some r => r +:+ nl end ∧
  stdout (check env self msg result color v) =
    stdout self +:+
      match result with
      | None => shown env self (label, mkKwargs color v) +:+
                shown env self (nl, mkKwargs None (v + 1))
      | Some r => shown env self (label, mkKwargs None v) +:+
                  shown env self (r, mkKwargs color v) +:+
                  shown env self (nl, mkKwargs None v)
      end.
Proof.
  intros Hq msg' label. unfold check. fold msg'. fold label.
  set (self1 := check_maxlen self msg').
  assert (Hq1 : no_open_block self1)
    by (unfold self1, check_maxlen; by case_bool_decide).
  assert (Hl1 : logfile self1 = logfile self)
    by (unfold self1, check_maxlen; by case_bool_decide).
  assert (Hs1 : stdout self1 = stdout self)
    by (unfold self1, check_maxlen; by case_bool_decide).
  assert (Hv1 : verbose self1 = verbose self)
    by (unfold self1, check_maxlen; by case_bool_decide).
  assert (Hn1 : nocolor self1 = nocolor self)
    by (unfold self1, check_maxlen; by case_bool_decide).
  destruct result as [r|].
  - destruct (write_now env self1 label true None v) as (Hla & Hsa & Hqa);
      [by right; right|].
    set (self2 := write env self1 label true None v) in *.
    specialize (Hqa Hq1).
    destruct (write_now env self2 r true color v) as (Hlb & Hsb & Hqb);
      [by right; right|].
    set (self3 := write env self2 r true color v) in *.
    specialize (Hqb Hqa).
    destruct (write_now env self3 nl true None v) as (Hlc & Hsc & Hqc);
      [by right; right|].
    split; [by apply Hqc|]. split.
    + rewrite Hlc, Hlb, Hla, Hl1. by rewrite !append_assoc.
    + rewrite Hsc, _write_stdout, Hsb, _write_stdout, Hsa, _write_stdout, Hs1.
      rewrite (shown_same env self self3), (shown_same env self self2),
        (shown_same env self self1); try done.
      * by rewrite !append_assoc.
      * unfold self2. by rewrite write_verbose.
      * unfold self2. by rewrite write_nocolor.
      * unfold self3, self2. by rewrite !write_verbose.
      * unfold self3, self2. by rewrite !write_nocolor.
  - destruct (write_now env self1 label true color v) as (Hla & Hsa & Hqa);
      [by right; right|].
    set (self2 := write env self1 label true color v) in *.
    specialize (Hqa Hq1).
    destruct (write_now env self2 nl true None (v + 1)) as (Hlc & Hsc & Hqc);
      [by right; right|].
    split; [by apply Hqc|]. split.
    + rewrite Hlc, Hla, Hl1. by rewrite !append_assoc.
    + rewrite Hsc, _write_stdout, Hsa, _write_stdout, Hs1.
      rewrite (shown_same env self self2), (shown_same env self self1); try done.
      * by rewrite !append_assoc.
      * unfold self2. by rewrite write_verbose.
      * unfold self2. by rewrite write_nocolor.
Qed.

Lemma run_checks_lookup self cs k before after c :
  maxlen self ≤ 40 →
  no_open_block self →
  (self :: run_checks self cs) !! k = Some before →
  run_checks self cs !! k = Some after →
  cs !! k = Some c →
  after = run_check before c ∧ maxlen before ≤ 40 ∧ no_open_block before.
Proof.
  revert self k. induction cs as [|c0 cs IH]; intros self k Hle Hq Hb Ha Hc; [done|].
  destruct k as [|k]; simpl in *.
  - by simplify_eq.
  - apply (IH (run_check self c0) k); try done.
    + unfold run_check. rewrite check_maxlen_eq.
      by apply check_maxlen_bounds.
    + unfold run_check. by apply check_now.
Qed.

(** C7, as the code pads. Over any sequence of [check] calls on a new
    logger, the running maximum never decreases and never exceeds 40;
    each call writes to the log file, and to stdout as its level and
    color say, its label left-justified to the maximum it leaves and
    then [': '], followed by the result, if one is given, and a newline.
    So the colon is at column max(length of the label, maximum): at the
    maximum for every label of at most 40 characters. *)
Theorem check_column_monotone out v nocolor show_threads cs k before after c :
  let start := init out v nocolor show_threads in
  (start :: run_checks start cs) !! k = Some before →
  run_checks start cs !! k = Some after →
  cs !! k = Some c →
  let env := c_env c in
  let msg := check_msg env before (c_msg c) in
  let label := ljust msg (maxlen after) +:+ ": " in
  maxlen before ≤ maxlen after ≤ 40 ∧
  logfile after =
    logfile before +:+ label +:+
      match c_result c with None => nl | Some r => r +:+ nl end ∧
  stdout after =
    stdout before +:+
      match c_result c with
      | None => shown env before (label, mkKwargs (c_color c) (c_verbose c)) +:+
                shown env before (nl, mkKwargs None (c_verbose c + 1))
      | Some r => shown env before (label, mkKwargs None (c_verbose c)) +:+
                  shown env before (r, mkKwargs (c_color c) (c_verbose c)) +:+
                  shown env before (nl, mkKwargs None (c_verbose c))
      end ∧
  colon_column label = Z.max (len msg) (maxlen after) ∧
  (len msg ≤ 40 → colon_column label = maxlen after).
Proof.
  intros start Hb Ha Hc env msg label.
  destruct (run_checks_lookup start cs k before after c) as (Hafter & Hle & Hq);
    try done.
  assert (Hmax : maxlen after = maxlen (check_maxlen before msg))
    by (rewrite Hafter; apply check_maxlen_eq).
  assert (Hlabel : label = check_label (check_maxlen before msg) msg)
    by (unfold label, check_label; by rewrite Hmax).
  assert (Hcol : colon_column label = Z.max (len msg) (maxlen after)).
  { unfold colon_column, label. rewrite len_append, len_ljust.
    change (len ": ") with 2. lia. }
  pose proof (check_maxlen_bounds before msg Hle) as Hbounds.
  rewrite <- Hmax in Hbounds.
  destruct (check_now env before (c_msg c) (c_result c) (c_color c) (c_verbose c) Hq)
    as (_ & Hlog & Hout).
  fold msg in Hlog, Hout. rewrite <- Hlabel in Hlog, Hout.
  split; [done|]. split; [by rewrite Hafter|]. split; [by rewrite Hafter|].
  split; [done|].
  intros Hmsg. rewrite Hcol, Hmax. unfold check_maxlen.
  case_bool_decide; simpl; lia.
Qed.

(** C8. Whatever its color and verbose level, a message goes to the log
    file as it is: [_write] appends exactly [msg] to the log file, and
    only what goes to stdout is colored, and only when the level allows
    it is anything written there. A [write] that is not buffered, or is
    made with one scheduler thread or outside every block of
    [log_from_thread], does that at once. Every other [write] leaves the
    log file and stdout alone and puts the message, with its color and
    level, at the end of the open block of the thread; when that block
    ends, the log file gets the messages of the block as they are, this
    one last, and stdout what their levels and colors give. *)
Theorem log_file_gets_message env self msg color v :
  let t := current_thread env in
  logfile (_write env self msg color v) = logfile self +:+ msg ∧
  stdout (_write env self msg color v) =
    (if bool_decide (v ≤ verbose self)
     then stdout self +:+ (if nocolor self then msg else color_str (win32 env) msg color)
     else stdout self) ∧
  (∀ buffer,
     buffer = false ∨ scheduler_count env = 1 ∨
       default [] (_thread_stacks self !! t) = [] →
     logfile (write env self msg buffer color v) = logfile self +:+ msg ∧
     stdout (write env self msg buffer color v)
       = stdout (_write env self msg color v)) ∧
  (∀ stack frame,
     scheduler_count env ≠ 1 →
     _thread_stacks self !! t = Some (stack ++ [frame]) →
     logfile (write env self msg true color v) = logfile self ∧
     stdout (write env self msg true color v) = stdout self ∧
     _thread_stacks (write env self msg true color v) !! t
       = Some (stack ++ [frame ++ [(msg, mkKwargs color v)]]) ∧
     ∃ self',
       log_from_thread_exit env (write env self msg true color v) = Ok self' ∧
       logfile self' = logfile self +:+ block_text frame +:+ msg ∧
       stdout self' =
         stdout self +:+ block_shown env self frame +:+
           shown env self (msg, mkKwargs color v) ∧
       _thread_stacks self' !! t = Some stack) ∧
  (∀ msgs, logfile (write_all env self msgs) = logfile self +:+ block_text msgs) ∧
  (∀ self', log_from_thread_exit env self = Ok self' →
     ∃ stack msgs,
       _thread_stacks self !! t = Some (stack ++ [msgs]) ∧
       _thread_stacks self' !! t = Some stack ∧
       logfile self' = logfile self +:+ block_text msgs).
Proof.
  intros t. split_and!; [| | | | |apply log_from_thread_exit_logfile].
  - done.
  - simpl. case_bool_decide; [|done]. by destruct (nocolor self).
  - intros buffer Hnow.
    destruct (write_now env self msg buffer color v Hnow) as (Hl & Hs & _).
    by split.
  - intros stack frame Hcount Hstack.
    rewrite (write_buffered env self msg color v stack frame) by done.
    split; [done|]. split; [done|]. split; [apply lookup_insert_eq|].
    unfold log_from_thread_exit. cbn [_thread_stacks set_thread_stacks].
    fold t. rewrite lookup_insert_eq, last_snoc.
    eexists. split; [reflexivity|].
    rewrite write_all_logfile, write_all_stdout, write_all_thread_stacks.
    cbn [_thread_stacks set_thread_stacks logfile stdout].
    rewrite block_text_snoc, block_shown_snoc. cbn [fst].
    split; [done|]. split.
    + by rewrite (block_shown_same env self), (shown_same env self).
    + rewrite lookup_insert_eq. f_equal. rewrite length_app. simpl.
      replace (length stack + 1 - 1)%nat with (length stack) by lia.
      by rewrite take_app_length.
  - apply write_all_logfile.
Qed.

End ConsoleProps.

(** ** The dependency extractor *)

Section OcamldepProps.
Import Ocamldep.

(** C9. The paths [__call__] returns do not depend on what the listing
    of the directory holds: two runs with the same output of the
    command and any two listings return the same, which is the list of
    the dependencies that the parsed [.depends] text gives for [src],
    without repetitions. *)
Theorem listdir_noninterference env1 env2 self src includes flags dirs1 dirs2 :
  execute env1 (command self src includes flags)
    = execute env2 (command self src includes flags) →
  listdir env1 (include_path src) = Ok dirs1 →
  listdir env2 (include_path src) = Ok dirs2 →
  call env1 self src includes flags = call env2 self src includes flags ∧
  ∀ text d,
    execute env1 (command self src includes flags) = Ok text →
    parse_depends text = Ok d →
    call env1 self src includes flags
      = Ok (add_paths [] (default [] (d !! Some src))).
Proof.
  intros Hexec Hl1 Hl2. unfold call. rewrite <- Hexec, Hl1, Hl2. split.
  - destruct (execute env1 _) as [text|e]; simpl; [|done].
    by destruct (parse_depends text).
  - intros text d -> Hd. simpl. by rewrite Hd.
Qed.

End OcamldepProps.

(** ** The properties on concrete stores, loggers and files *)

Module Examples.
Import PickleBackend StoreOps Console CheckRuns.

(** Two bound-argument dictionaries differ when they differ at a key. *)
Ltac bound_ne k :=
  let Heq := fresh in
  intros Heq; apply (f_equal (λ m : gmap string Z, m !! k)) in Heq;
  vm_compute in Heq; discriminate Heq.

(** [save_commits] at a concrete input: a store with one function,
    committed over an earlier file where every step is permitted, and
    where none is. *)
Lemma save_commits_witness :
  let self : Store Z Z Z := save_function PickleBackend.init "f" "d0" in
  let s := Pickle.dumps (_functions self, _function_calls self, _files self,
                         _call_files self, _external_srcs self,
                         _external_dsts self) in
  let σ := Fs.mkState {[ "fbuild.db" := [x00]%byte ]} [] (λ _, true) in
  let ρ := Fs.mkState {[ "fbuild.db" := [x00]%byte ]} [] (λ _, false) in
  (∃ σ',
     save Pickle.dumps self "fbuild.db" σ = Ok (tt, σ') ∧
     Fs.files σ' !! "fbuild.db" = Some s ∧
     Fs.files σ' !! "fbuild.db.tmp" = None ∧
     Fs.files σ' !! "fbuild.db.old" = None ∧
     Fs.trace σ' = [Fs.Write "fbuild.db.tmp" s;
                    Fs.Rename "fbuild.db" "fbuild.db.old";
                    Fs.Rename "fbuild.db.tmp" "fbuild.db";
                    Fs.Remove "fbuild.db.old"]) ∧
  save Pickle.dumps self "fbuild.db" ρ = Raise OSError.
Proof.
  intros self s σ ρ. split.
  - destruct (save_commits Pickle.dumps self "fbuild.db" σ) as (Hok & Hrun & _).
    destruct Hrun as [σ' Hrun]; [done|].
    destruct (Hok σ' Hrun) as (Hnew & Htmp & Hold & _ & Htrace).
    exists σ'. by split_and!.
  - destruct (save_commits Pickle.dumps self "fbuild.db" ρ) as (_ & _ & Hraise).
    by apply Hraise.
Defined.

(** [save_function_purges] at a concrete input. *)
Lemma save_function_purges_witness :
  let self : Store Z Z Z :=
    save_call_file (save_function PickleBackend.init "f" "d0") 0 "f" "a.c" "x" in
  find_function (save_function self "f" "d1") "f" = Some "d1" ∧
  find_call_file (save_function self "f" "d1") 0 "f" "a.c" = None.
Proof.
  intros self.
  destruct (save_function_purges self "f" "d1")
    as (Hf & _ & _ & _ & _ & _ & _ & Hcf & _).
  split; [exact Hf | exact (Hcf 0 "a.c")].
Defined.

(** [find_call_lowest_match] at a concrete input. *)
Lemma find_call_lowest_match_witness :
  let self : Store Z Z Z :=
    mkStore ∅ {[ "f" := [({[ "x" := 1 ]}, 10); ({[ "x" := 2 ]}, 20);
                          ({[ "x" := 2 ]}, 30)] ]} ∅ ∅ ∅ ∅ in
  find_call self "f" {[ "x" := 2 ]} = (Some 1, Some 20).
Proof.
  intros self.
  destruct (find_call_lowest_match self "f" {[ "x" := 2 ]}) as (Hhit & _).
  apply (Hhit [({[ "x" := 1 ]}, 10); ({[ "x" := 2 ]}, 20); ({[ "x" := 2 ]}, 30)]
              1%nat 20); [reflexivity | reflexivity |].
  intros [|j] b r' Hj Hl; [|lia].
  injection Hl as <- _. bound_ne "x".
Defined.

(** [save_call_effective_id] at a concrete input. *)
Lemma save_call_effective_id_witness :
  let self : Store Z Z Z :=
    mkStore ∅ {[ "f" := [({[ "x" := 1 ]}, 10); ({[ "x" := 2 ]}, 20)] ]} ∅ ∅ ∅ ∅ in
  ∃ self', save_call self "f" (Some 1) {[ "x" := 3 ]} 30 = Ok (1, self') ∧
    _function_calls self' !! "f"
      = Some [({[ "x" := 1 ]}, 10); ({[ "x" := 3 ]}, 30)].
Proof.
  intros self.
  destruct (save_call_effective_id self "f" (Some 1) {[ "x" := 3 ]} 30)
    as (_ & _ & Hset & _).
  apply (Hset [({[ "x" := 1 ]}, 10); ({[ "x" := 2 ]}, 20)] 1);
    [reflexivity | reflexivity | simpl; lia].
Defined.

(** C4, a counterexample to the sentence of the specification. With no list of calls for the name, an
    integer id is not the position written: on the empty store
    [save_call("f", 5, {}, 7)] returns 0 and makes the one-element
    list. *)
Lemma save_call_ignores_call_id :
  (∃ self', save_call (@PickleBackend.init Z Z Z) "f" (Some 5) ∅ 7 = Ok (0, self') ∧
     _function_calls self' !! "f" = Some [(∅, 7)]) ∧
  ¬ overwrites_at (@PickleBackend.init Z Z Z) "f" 5 ∅ 7.
Proof.
  split.
  - eexists. split; reflexivity.
  - intros (self' & datas & Hsave & _). discriminate Hsave.
Qed.

(** [save_call_find_call] at a concrete input. *)
Lemma save_call_find_call_witness :
  let self : Store Z Z Z :=
    mkStore ∅ {[ "f" := [({[ "x" := 1 ]}, 10)] ]} ∅ ∅ ∅ ∅ in
  ∃ i self',
    save_call self "f" None {[ "x" := 2 ]} 20 = Ok (i, self') ∧
    find_call self' "f" {[ "x" := 2 ]} = (Some i, Some 20).
Proof.
  intros self.
  apply (save_call_find_call self "f" {[ "x" := 2 ]} 20).
  intros datas j b r Hd Hl.
  assert (Some datas = Some [(({[ "x" := 1 ]} : gmap string Z), 10)]) as [= ->]
    by (rewrite <- Hd; reflexivity).
  destruct j as [|j]; [|by destruct j].
  injection Hl as <- _. bound_ne "x".
Defined.

(** [recorded_call_files_have_file] at a concrete input. *)
Lemma recorded_call_files_have_file_witness :
  let self : Store Z Z Z :=
    save_call_file (save_file PickleBackend.init "a.c" 1 "x") 0 "f" "a.c" "x" in
  call_files_have_file self.
Proof.
  intros self.
  apply (recorded_call_files_have_file self).
  eapply (reachable_recording_step _ (SaveCallFile 0 "f" "a.c" "x")).
  - eapply (reachable_recording_step _ (SaveFile "a.c" 1 "x")).
    + apply reachable_recording_init.
    + exact I.
    + reflexivity.
  - exists 1. reflexivity.
  - reflexivity.
Defined.

(** C6, a counterexample to the sentence of the specification.
    [save_call_file] alone, on the empty store,
    reaches a store whose call-file relation holds
    [("a.c", "f", 0) → "x"] while the file relation holds nothing for
    ["a.c"]. *)
Lemma call_file_without_file :
  let self : Store Z Z Z := save_call_file PickleBackend.init 0 "f" "a.c" "x" in
  reachable self ∧
  find_call_file self 0 "f" "a.c" = Some "x" ∧
  _files self !! "a.c" = None ∧
  ¬ call_files_have_file self.
Proof.
  intros self. split_and!.
  - eapply (reachable_step _ (SaveCallFile 0 "f" "a.c" "x"));
      [apply reachable_init | reflexivity].
  - reflexivity.
  - reflexivity.
  - intros Hinv. destruct (Hinv "a.c" "f" 0 "x") as (m & d' & Hm); [reflexivity|].
    discriminate Hm.
Qed.

(** [absent_keys_total] at a concrete input. *)
Lemma absent_keys_total_witness :
  let self : Store Z Z Z :=
    save_call_file (save_file PickleBackend.init "a.c" 1 "x") 0 "f" "a.c" "x" in
  find_function self "g" = None ∧
  find_call self "g" ∅ = (None, None) ∧
  find_call_file self 0 "g" "a.c" = None ∧
  find_external_srcs self 0 "g" = ∅ ∧
  find_external_dsts self 0 "g" = ∅ ∧
  find_file self "b.c" = (None, None) ∧
  delete_function self "g" = self ∧
  delete_file self "b.c" = self.
Proof.
  intros self.
  destruct (absent_keys_total self)
    as (Hff & Hfc & _ & Hfcf & _ & Hsrc & _ & Hdst & _ & Hfile & Hdf & Hdfile & Hne).
  assert (Hreach : reachable self).
  { eapply (reachable_step _ (SaveCallFile 0 "f" "a.c" "x")).
    - eapply (reachable_step _ (SaveFile "a.c" 1 "x"));
        [apply reachable_init | reflexivity].
    - reflexivity. }
  split_and!.
  - by apply Hff.
  - by apply Hfc.
  - by apply (Hfcf 0 "g" "a.c" {[ "f" := {[ 0 := "x" ]} ]}).
  - by apply Hsrc.
  - by apply Hdst.
  - by apply Hfile.
  - apply Hdf; [|by apply Hne].
    split_and!; try reflexivity.
    intros p by_fun Hp.
    destruct (decide (p = "a.c")) as [->|Hpa].
    + vm_compute in Hp. injection Hp as <-. reflexivity.
    + unfold self, save_call_file in Hp. simpl in Hp.
      rewrite lookup_insert_ne in Hp by done. by rewrite lookup_empty in Hp.
  - apply Hdfile. split; reflexivity.
Defined.

(** C10, a counterexample to the sentence of the specification. A
    store that is reached by recording a call of [f] and a call file of
    [g] for [a.c], with neither the function nor the file saved:
    [find_function] finds no [f] and [find_file] no [a.c], yet
    [delete_function] takes the call of [f] away and [delete_file] the
    call file of [a.c]. *)
Lemma absent_key_delete_changes :
  let self : Store Z Z Z :=
    mkStore ∅ {[ "f" := [(∅, 7)] ]} ∅ {[ "a.c" := {[ "g" := {[ 0 := "x" ]} ]} ]} ∅ ∅ in
  reachable self ∧
  _functions self !! "f" = None ∧
  find_function self "f" = None ∧
  find_call self "f" ∅ = (Some 0, Some 7) ∧
  find_call (delete_function self "f") "f" ∅ = (None, None) ∧
  delete_function self "f" ≠ self ∧
  _files self !! "a.c" = None ∧
  find_file self "a.c" = (None, None) ∧
  find_call_file self 0 "g" "a.c" = Some "x" ∧
  find_call_file (delete_file self "a.c") 0 "g" "a.c" = None ∧
  delete_file self "a.c" ≠ self ∧
  ¬ absent_deletes_keep self.
Proof.
  intros self.
  assert (Hf : delete_function self "f" ≠ self).
  { intros Heq. apply (f_equal (λ s, find_call s "f" ∅)) in Heq.
    vm_compute in Heq. discriminate Heq. }
  assert (Hp : delete_file self "a.c" ≠ self).
  { intros Heq. apply (f_equal (λ s, find_call_file s 0 "g" "a.c")) in Heq.
    vm_compute in Heq. discriminate Heq. }
  split_and!; try reflexivity; try done.
  - eapply (reachable_step _ (SaveCallFile 0 "g" "a.c" "x")).
    + eapply (reachable_step _ (SaveCall "f" None ∅ 7));
        [apply reachable_init | reflexivity].
    + reflexivity.
  - intros [Hkeep _]. apply Hf. by apply Hkeep.
Qed.

(** [check_column_monotone] at a concrete input. *)
Lemma check_column_monotone_witness :
  let env := Console.mkEnv false 1 0 "MainThread" in
  let c1 := mkCall env "checking for gcc" None None 0 in
  let c2 := mkCall env "checking if the compiler accepts -g" (Some "ok") (Some "green") 0 in
  let start := Console.init "" 0 false false in
  let before := run_check start c1 in
  let after := run_check before c2 in
  let label := "checking if the compiler accepts -g : " in
  maxlen before = 25 ∧ maxlen after = 36 ∧
  maxlen before ≤ maxlen after ≤ 40 ∧
  logfile after = logfile before +:+ label +:+ "ok" +:+ nl ∧
  stdout after =
    stdout before +:+ label +:+ (esc +:+ "[01;32mok" +:+ esc +:+ "[0m") +:+ nl ∧
  colon_column label = maxlen after.
Proof.
  intros env c1 c2 start before after label.
  destruct (check_column_monotone "" 0 false false [c1; c2] 1 before after c2)
    as (Hmono & Hlog & Hout & _ & Hcol);
    [reflexivity | reflexivity | reflexivity |].
  split; [reflexivity|]. split; [reflexivity|]. split; [exact Hmono|].
  split; [exact Hlog|]. split; [exact Hout|].
  apply Hcol. by vm_compute.
Defined.

(** C7, a counterexample to the sentence of the specification. A label of more than 40 characters is not
    padded, and its colon comes after the label, past the maximum: on a
    new logger a [check] with a label of 45 characters leaves the
    maximum at 40 and writes the label with its colon at column 45. *)
Lemma long_label_past_maximum :
  let env := Console.mkEnv false 1 0 "MainThread" in
  let self := Console.init "" 0 false false in
  let c := mkCall env "checking for a header with a very long name.h" None None 0 in
  let label := "checking for a header with a very long name.h: " in
  maxlen (run_check self c) = 40 ∧
  logfile (run_check self c) = label +:+ nl ∧
  stdout (run_check self c) = label ∧
  colon_column label = 45 ∧
  colon_column label ≠ maxlen (run_check self c).
Proof.
  intros env self c label. split_and!; try reflexivity. by vm_compute.
Qed.

(** [log_file_gets_message] at a concrete input: a colored message
    written at once, at a level that is shown and at one that is not,
    and the same message written inside a block with four scheduler
    threads. *)
Lemma log_file_gets_message_witness :
  let env := Console.mkEnv false 4 0 "MainThread" in
  let self := Console.init "" 0 false false in
  let inside := log_from_thread_enter env self in
  let painted := esc +:+ "[01;32mok" +:+ esc +:+ "[0m" in
  logfile (_write env self "ok" (Some "green") 1) = "ok" ∧
  stdout (_write env self "ok" (Some "green") 1) = "" ∧
  logfile (write env self "ok" true (Some "green") 0) = "ok" ∧
  stdout (write env self "ok" true (Some "green") 0) = painted ∧
  logfile (write env inside "ok" true (Some "green") 0) = "" ∧
  stdout (write env inside "ok" true (Some "green") 0) = "" ∧
  _thread_stacks (write env inside "ok" true (Some "green") 0) !! 0%nat
    = Some [[("ok", mkKwargs (Some "green") 0)]] ∧
  ∃ self',
    log_from_thread_exit env (write env inside "ok" true (Some "green") 0)
      = Ok self' ∧
    logfile self' = "ok" ∧ stdout self' = painted ∧
    _thread_stacks self' !! 0%nat = Some [].
Proof.
  intros env self inside painted.
  destruct (log_file_gets_message env self "ok" (Some "green") 1) as (Hl1 & Hs1 & _).
  destruct (log_file_gets_message env self "ok" (Some "green") 0)
    as (_ & Hs0 & Hnow & _).
  destruct (Hnow true) as (Hl & Hs); [by right; right|].
  destruct (log_file_gets_message env inside "ok" (Some "green") 0)
    as (_ & _ & _ & Hblock & _).
  destruct (Hblock [] []) as (Hbl & Hbs & Hbt & self' & Hexit & Hel & Hes & Het);
    [done | reflexivity |].
  split; [exact Hl1|]. split; [exact Hs1|]. split; [exact Hl|].
  split; [rewrite Hs; exact Hs0|].
  split; [exact Hbl|]. split; [exact Hbs|]. split; [exact Hbt|].
  exists self'. split; [exact Hexit|].
  split; [exact Hel|]. split; [exact Hes|exact Het].
Defined.

(** [listdir_noninterference] at a concrete input. *)
Lemma listdir_noninterference_witness :
  let text := "foo.cmo: bar.cmi baz.cmo bar.cmi" +:+ nl in
  let env1 := Ocamldep.mkEnv (λ _, Ok text) (λ _, Ok ["foo.ml"; "bar.mli"]) in
  let env2 := Ocamldep.mkEnv (λ _, Ok text) (λ _, Ok []) in
  let self := Ocamldep.mkOcamldep "ocamldep" [] in
  Ocamldep.call env1 self "foo.ml" [] [] = Ocamldep.call env2 self "foo.ml" [] [] ∧
  Ocamldep.call env1 self "foo.ml" [] [] = Ok [Some "bar.mli"; Some "baz.ml"].
Proof.
  intros text env1 env2 self.
  destruct (listdir_noninterference env1 env2 self "foo.ml" [] []
              ["foo.ml"; "bar.mli"] []) as [Heq Hpaths];
    [reflexivity | reflexivity | reflexivity |].
  split; [exact Heq|].
  destruct (Ocamldep.parse_depends text) as [d|e] eqn:Hd; [|by vm_compute in Hd].
  rewrite (Hpaths text d eq_refl Hd).
  assert (Ok d = Ok (<[Some "foo.ml" := [Some "bar.mli"; Some "baz.ml"; Some "bar.mli"]]> ∅))
    as [= ->] by (rewrite <- Hd; by vm_compute).
  reflexivity.
Defined.

End Examples.

(** * Further properties *)

(** ** The store: round trips, frames and compositions *)

Section StoreMore.
Import PickleBackend StoreOps.
Context {Value Result Mtime : Type} `{!EqDecision Value}.
Implicit Types (self : Store Value Result Mtime).

(** X1. [save_file] then [find_file] gives back the time and the digest;
    the records of the other paths, and every call-file digest, are left
    alone. *)
Theorem save_file_find_file self p mtime digest :
  find_file (save_file self p mtime digest) p = (Some mtime, Some digest) ∧
  (∀ q, q ≠ p → find_file (save_file self p mtime digest) q = find_file self q) ∧
  (∀ i f q, find_call_file (save_file self p mtime digest) i f q
            = find_call_file self i f q).
Proof.
  unfold find_file. simpl. split_and!.
  - by rewrite lookup_insert_eq.
  - intros q Hq. by rewrite lookup_insert_ne.
  - done.
Qed.

(** X2. [delete_file] forgets the path in both relations keyed by
    path: afterwards [find_file] and every [find_call_file] for the
    path find nothing, the other paths are as before, and a
    [save_file] of the path just before makes no difference. *)
Theorem delete_file_forgets self p :
  find_file (delete_file self p) p = (None, None) ∧
  (∀ i f, find_call_file (delete_file self p) i f p = None) ∧
  (∀ q, q ≠ p → find_file (delete_file self p) q = find_file self q) ∧
  (∀ i f q, q ≠ p →
     find_call_file (delete_file self p) i f q = find_call_file self i f q) ∧
  (∀ mtime digest, delete_file (save_file self p mtime digest) p = delete_file self p).
Proof.
  unfold find_file. split_and!.
  - simpl. by rewrite lookup_delete_eq.
  - intros i f. rewrite find_call_file_lookup. simpl. by rewrite lookup_delete_eq.
  - intros q Hq. simpl. by rewrite lookup_delete_ne.
  - intros i f q Hq. rewrite !find_call_file_lookup. simpl.
    by rewrite lookup_delete_ne.
  - intros mtime digest. unfold delete_file, save_file. simpl.
    by rewrite delete_insert_eq.
Qed.

(** The digest found after one [save_call_file]. *)
Lemma find_call_file_save_call_file self i f p d i' f' p' :
  find_call_file (save_call_file self i f p d) i' f' p' =
    if decide (i' = i ∧ f' = f ∧ p' = p) then Some d
    else find_call_file self i' f' p'.
Proof.
  rewrite !find_call_file_lookup. unfold save_call_file. simpl.
  destruct (decide (p' = p)) as [->|Hp].
  - rewrite lookup_insert_eq. simpl.
    destruct (decide (f' = f)) as [->|Hf].
    + rewrite lookup_insert_eq. simpl.
      destruct (decide (i' = i)) as [->|Hi].
      * rewrite lookup_insert_eq. by rewrite decide_True.
      * rewrite lookup_insert_ne by done.
        rewrite decide_False by (by intros (? & _)).
        destruct (_call_files self !! p) as [by_fun|]; simpl; [|done].
        by destruct (by_fun !! f).
    + rewrite lookup_insert_ne by done.
      rewrite decide_False by (by intros (_ & ? & _)).
      by destruct (_call_files self !! p).
  - rewrite lookup_insert_ne by done.
    by rewrite decide_False by (by intros (_ & _ & ?)).
Qed.

(** X3. [save_call_file] then [find_call_file] for the same call and path
    gives the digest back, and the digest of every other call or path is
    as before. *)
Theorem save_call_file_find_call_file self i f p d :
  find_call_file (save_call_file self i f p d) i f p = Some d ∧
  ∀ i' f' p', (i', f', p') ≠ (i, f, p) →
    find_call_file (save_call_file self i f p d) i' f' p'
      = find_call_file self i' f' p'.
Proof.
  split.
  - rewrite find_call_file_save_call_file. by rewrite decide_True.
  - intros i' f' p' Hne. rewrite find_call_file_save_call_file.
    rewrite decide_False; [done|]. intros (-> & -> & ->). by apply Hne.
Qed.

Lemma save_call_files_frame self i f ds i' f' q :
  (i', f') ≠ (i, f) ∨ q ∉ ds.*1 →
  find_call_file (save_call_files self i f ds) i' f' q = find_call_file self i' f' q.
Proof.
  unfold save_call_files. revert self.
  induction ds as [|[p d] ds IH]; intros self Hne; simpl; [done|].
  rewrite IH.
  - rewrite find_call_file_save_call_file. simpl.
    rewrite decide_False; [done|]. intros (-> & -> & ->).
    destruct Hne as [Hne|Hne]; [by apply Hne|].
    apply Hne. simpl. by left.
  - destruct Hne as [Hne|Hne]; [by left|]. right.
    intros Hin. apply Hne. simpl. by right.
Qed.

Lemma save_call_files_found self i f ds p d :
  NoDup ds.*1 → (p, d) ∈ ds →
  find_call_file (save_call_files self i f ds) i f p = Some d.
Proof.
  unfold save_call_files. revert self.
  induction ds as [|[p0 d0] ds IH]; intros self Hnd Hin; simpl.
  - by apply elem_of_nil in Hin.
  - simpl in Hnd. apply NoDup_cons in Hnd as [Hp0 Hnd].
    apply elem_of_cons in Hin as [[= -> ->]|Hin].
    + pose proof (save_call_files_frame (save_call_file self i f p0 d0) i f ds i f p0)
        as Hframe.
      unfold save_call_files in Hframe. rewrite Hframe by (by right).
      rewrite find_call_file_save_call_file. by rewrite decide_True.
    + by apply IH.
Qed.

Lemma save_call_files_externals self i f ds :
  _external_srcs (save_call_files self i f ds) = _external_srcs self ∧
  _external_dsts (save_call_files self i f ds) = _external_dsts self.
Proof.
  unfold save_call_files. revert self.
  induction ds as [|[p d] ds IH]; intros self; simpl; [done|].
  by destruct (IH (save_call_file self i f p d)) as [-> ->].
Qed.

(** X4. [save_external_files] then the finds: the two sets come back for
    the call, the sets of every other call are as before, and when no
    path comes twice in [digests], every pair of it is found by
    [find_call_file] (with [save_call_files] recording each pair by
    [save_call_file]). *)
Theorem save_external_files_found self f i srcs dsts digests :
  let self' := save_external_files self f i srcs dsts digests in
  find_external_srcs self' i f = srcs ∧
  find_external_dsts self' i f = dsts ∧
  (∀ i' f', (i', f') ≠ (i, f) →
     find_external_srcs self' i' f' = find_external_srcs self i' f' ∧
     find_external_dsts self' i' f' = find_external_dsts self i' f') ∧
  (NoDup digests.*1 → ∀ p d, (p, d) ∈ digests →
     find_call_file self' i f p = Some d).
Proof.
  simpl. unfold save_external_files, find_external_srcs, find_external_dsts.
  destruct (save_call_files_externals
    (mkStore (_functions self) (_function_calls self) (_files self)
       (_call_files self)
       (<[f := <[i := srcs]> (default ∅ (_external_srcs self !! f))]>
          (_external_srcs self))
       (<[f := <[i := dsts]> (default ∅ (_external_dsts self !! f))]>
          (_external_dsts self))) i f digests) as [-> ->].
  simpl. split_and!.
  - by rewrite !lookup_insert_eq.
  - by rewrite !lookup_insert_eq.
  - intros i' f' Hne. destruct (decide (f' = f)) as [->|Hf].
    + assert (i' ≠ i) by (intros ->; by apply Hne).
      rewrite !lookup_insert_eq, !lookup_insert_ne by done.
      split.
      * by destruct (_external_srcs self !! f).
      * by destruct (_external_dsts self !! f).
    + by rewrite !lookup_insert_ne by done.
  - intros Hnd p d Hin. by apply save_call_files_found.
Qed.

Lemma purge_call_files_idemp f (cf : gmap string (gmap string (gmap Z string))) :
  purge_call_files f (purge_call_files f cf) = purge_call_files f cf.
Proof.
  apply map_eq. intros p. rewrite !lookup_purge_call_files.
  destruct (cf !! p) as [m|]; [|done].
  destruct (decide (delete f m = ∅)) as [He|Hne]; [done|].
  rewrite delete_delete_eq. by rewrite decide_False.
Qed.

(** X5. Deleting or saving a function twice is as doing it once:
    [delete_function] is idempotent, and of two [save_function] of the
    same name the second decides. *)
Theorem save_function_twice self f d1 d2 :
  delete_function (delete_function self f) f = delete_function self f ∧
  save_function (save_function self f d1) f d2 = save_function self f d2 ∧
  delete_function (save_function self f d1) f = delete_function self f.
Proof.
  unfold save_function, delete_function. simpl. split_and!.
  - by rewrite !delete_delete_eq, purge_call_files_idemp.
  - rewrite !delete_delete_eq, purge_call_files_idemp.
    by rewrite delete_insert_eq, delete_delete_eq.
  - rewrite !delete_delete_eq, purge_call_files_idemp.
    by rewrite delete_insert_eq, delete_delete_eq.
Qed.

(** X6. [save_call] never moves a recorded call: whenever it returns,
    the list of the function is at least as long as before, and every
    position but the one the returned id names holds what it held. *)
Theorem save_call_keeps_ids self name call_id bound result i self' datas :
  _function_calls self !! name = Some datas →
  save_call self name call_id bound result = Ok (i, self') →
  ∃ datas' k,
    _function_calls self' !! name = Some datas' ∧
    py_index (length datas') i = Some k ∧
    (length datas ≤ length datas')%nat ∧
    ∀ j, j ≠ k → datas' !! j = datas !! j.
Proof.
  intros Hd. unfold save_call. rewrite Hd. destruct call_id as [c|].
  - unfold py_setitem.
    destruct (py_index (length datas) c) as [k|] eqn:Hk; simpl; [|done].
    intros [= <- <-]. exists (<[k := (bound, result)]> datas), k. simpl.
    rewrite lookup_insert_eq, length_insert. split_and!; try done.
    intros j Hj. by apply list_lookup_insert_ne.
  - intros [= <- <-]. exists (datas ++ [(bound, result)]), (length datas). simpl.
    rewrite lookup_insert_eq. split_and!; try done.
    + rewrite length_app. simpl.
      replace (Z.of_nat (length datas + 1) - 1) with (Z.of_nat (length datas)) by lia.
      rewrite py_index_nonneg by lia. by rewrite Nat2Z.id.
    + rewrite length_app. lia.
    + intros j Hj. destruct (decide (j < length datas)%nat).
      * by rewrite lookup_app_l.
      * rewrite !lookup_ge_None_2; [done|lia|rewrite length_app; simpl; lia].
Qed.

(** X7. Writing over a recorded call and finding it again: when [id] is
    an index of the list and no earlier pair has bound arguments equal to
    [bound], [find_call] on the store [save_call] leaves gives the
    position written, counted from the start, and the new result. *)
Theorem save_call_overwrite_find_call self name id bound result datas k :
  _function_calls self !! name = Some datas →
  py_index (length datas) id = Some k →
  (∀ j b r, (j < k)%nat → datas !! j = Some (b, r) → b ≠ bound) →
  ∃ self',
    save_call self name (Some id) bound result = Ok (id, self') ∧
    find_call self' name bound = (Some (Z.of_nat k), Some result).
Proof.
  intros Hd Hk Hfresh. unfold save_call, py_setitem. rewrite Hd, Hk. simpl.
  eexists. split; [done|]. unfold find_call. simpl. rewrite lookup_insert_eq.
  rewrite (scan_calls_hit bound 0 _ k result); [done| |].
  - apply list_lookup_insert_eq. by eapply py_index_lt.
  - intros j b r Hj Hl. rewrite list_lookup_insert_ne in Hl by lia.
    by apply (Hfresh j b r).
Qed.

(** X8. A negative [id] counts from the end, as Python's lists do, and is
    returned as it is: for [-len <= id < 0], [save_call] writes position
    [len + id] and returns [id]. [find_call] then finds the call at an
    index from 0 to [len + id], at [len + id] with the saved result when
    no earlier pair has the same bound arguments, so that the id
    [save_call] returns is never the id [find_call] gives for the
    call. *)
Theorem save_call_negative_id self name id bound result datas :
  _function_calls self !! name = Some datas →
  - Z.of_nat (length datas) ≤ id < 0 →
  ∃ self',
    save_call self name (Some id) bound result = Ok (id, self') ∧
    _function_calls self' !! name
      = Some (<[Z.to_nat (Z.of_nat (length datas) + id) := (bound, result)]> datas) ∧
    (∃ k r, find_call self' name bound = (Some k, Some r) ∧
            0 ≤ k ≤ Z.of_nat (length datas) + id) ∧
    ((∀ j b r, (j < Z.to_nat (Z.of_nat (length datas) + id))%nat →
               datas !! j = Some (b, r) → b ≠ bound) →
     find_call self' name bound
       = (Some (Z.of_nat (length datas) + id), Some result)) ∧
    find_call self' name bound ≠ (Some id, Some result).
Proof.
  intros Hd Hid.
  set (n := Z.to_nat (Z.of_nat (length datas) + id)).
  assert (Hk : py_index (length datas) id = Some n).
  { unfold py_index. rewrite bool_decide_eq_false_2 by lia.
    by rewrite bool_decide_eq_true_2 by lia. }
  unfold save_call, py_setitem. rewrite Hd, Hk. simpl.
  eexists. split; [done|]. simpl. rewrite lookup_insert_eq. split; [done|].
  unfold find_call. simpl. rewrite lookup_insert_eq.
  set (datas' := <[n := (bound, result)]> datas).
  assert (Hn : datas' !! n = Some (bound, result))
    by (apply list_lookup_insert_eq; lia).
  assert (Hfound : ∃ k r, scan_calls bound 0 datas' = (Some k, Some r) ∧
                          0 ≤ k ≤ Z.of_nat (length datas) + id).
  { destruct (scan_calls_cases bound datas') as [Hall|(i & r & Hi & Hmin)].
    - by destruct (Hall n bound result Hn).
    - exists (Z.of_nat i), r. split; [by rewrite (scan_calls_hit _ 0 _ i r)|].
      destruct (decide (i ≤ n)%nat) as [Hle|Hgt]; [lia|].
      destruct (Hmin n bound result); [lia|done|done]. }
  split; [done|]. split.
  - intros Hfresh. rewrite (scan_calls_hit bound 0 _ n result).
    + do 2 f_equal. lia.
    + done.
    + intros j b r Hj Hl. unfold datas' in Hl.
      rewrite list_lookup_insert_ne in Hl by lia.
      by apply (Hfresh j b r).
  - destruct Hfound as (k & r & -> & Hk0). intros [= Heq _]. lia.
Qed.

(** X9. After [save_function] the function has no calls, so the next
    [save_call] starts a new list: whatever id it is given, it returns 0,
    and [find_call] then finds the call at 0. *)
Theorem save_function_then_save_call self name digest call_id bound result :
  ∃ self',
    save_call (save_function self name digest) name call_id bound result
      = Ok (0, self') ∧
    _function_calls self' !! name = Some [(bound, result)] ∧
    find_function self' name = Some digest ∧
    find_call self' name bound = (Some 0, Some result).
Proof.
  unfold save_call, save_function, delete_function. simpl.
  rewrite lookup_delete_eq. eexists. split; [done|].
  unfold find_function, find_call. simpl. rewrite !lookup_insert_eq. simpl.
  by rewrite decide_True.
Qed.

(** The dictionaries of [_call_files] are not empty, at either level. *)
Lemma call_files_full_apply self o self' :
  (∀ p by_fun, _call_files self !! p = Some by_fun →
     by_fun ≠ ∅ ∧ ∀ f by_id, by_fun !! f = Some by_id → by_id ≠ ∅) →
  apply self o = Ok self' →
  ∀ p by_fun, _call_files self' !! p = Some by_fun →
    by_fun ≠ ∅ ∧ ∀ f by_id, by_fun !! f = Some by_id → by_id ≠ ∅.
Proof.
  intros Hinv.
  assert (Hpurge : ∀ g p by_fun,
    purge_call_files g (_call_files self) !! p = Some by_fun →
    by_fun ≠ ∅ ∧ ∀ f by_id, by_fun !! f = Some by_id → by_id ≠ ∅).
  { intros g p by_fun Hp. split; [by eapply purge_call_files_nonempty|].
    rewrite lookup_purge_call_files in Hp.
    destruct (_call_files self !! p) as [m|] eqn:Hm; [|done].
    destruct (decide _); [done|]. injection Hp as <-.
    intros f by_id Hf. apply lookup_delete_Some in Hf as [_ Hf].
    by apply (proj2 (Hinv p m Hm) f). }
  assert (Hone : ∀ (s : Store Value Result Mtime) i f q d,
    (∀ p by_fun, _call_files s !! p = Some by_fun →
       by_fun ≠ ∅ ∧ ∀ f by_id, by_fun !! f = Some by_id → by_id ≠ ∅) →
    ∀ p by_fun, _call_files (save_call_file s i f q d) !! p = Some by_fun →
       by_fun ≠ ∅ ∧ ∀ f by_id, by_fun !! f = Some by_id → by_id ≠ ∅).
  { intros s i f q d Hs p by_fun. unfold save_call_file. simpl.
    destruct (decide (q = p)) as [->|Hqp].
    - rewrite lookup_insert_eq. intros [= <-]. split; [apply insert_non_empty|].
      intros f' by_id. destruct (decide (f = f')) as [->|Hff].
      + rewrite lookup_insert_eq. intros [= <-]. apply insert_non_empty.
      + rewrite lookup_insert_ne by done.
        destruct (_call_files s !! p) as [m|] eqn:Hm; simpl.
        * by apply (proj2 (Hs p m Hm)).
        * by rewrite lookup_empty.
    - rewrite lookup_insert_ne by done. apply Hs. }
  destruct o; simpl.
  - intros [= <-]. simpl. apply Hpurge.
  - intros [= <-]. simpl. apply Hpurge.
  - destruct (save_call self fun_name call_id bound result) as [[i s]|e] eqn:Hs;
      simpl; [|done].
    intros [= <-]. apply save_call_frame in Hs as (_ & _ & Hcf & _).
    by rewrite Hcf.
  - intros [= <-]. by apply Hone.
  - intros [= <-]. unfold save_external_files, save_call_files.
    set (s0 := mkStore _ _ _ _ _ _).
    assert (Hs0 : ∀ p by_fun, _call_files s0 !! p = Some by_fun →
      by_fun ≠ ∅ ∧ ∀ f by_id, by_fun !! f = Some by_id → by_id ≠ ∅) by done.
    clearbody s0. revert s0 Hs0.
    induction digests as [|[q d] ds IH]; intros s0 Hs0; simpl; [done|].
    apply IH. by apply Hone.
  - by intros [= <-].
  - intros [= <-] p by_fun. simpl. intros Hp.
    apply lookup_delete_Some in Hp as [_ Hp]. by apply (Hinv p by_fun).
Qed.

(** X10. In every store the operations reach, a path is a key of
    [_call_files] only while some call has a digest recorded for it. *)
Theorem reachable_call_files_recorded self p :
  reachable self →
  is_Some (_call_files self !! p) →
  ∃ f i d, find_call_file self i f p = Some d.
Proof.
  intros Hreach.
  assert (Hinv : ∀ p by_fun, _call_files self !! p = Some by_fun →
    by_fun ≠ ∅ ∧ ∀ f by_id, by_fun !! f = Some by_id → by_id ≠ ∅).
  { induction Hreach as [|self o self' _ IH Hstep].
    - intros q m. simpl. by rewrite lookup_empty.
    - by apply (call_files_full_apply self o). }
  intros [by_fun Hp]. destruct (Hinv p by_fun Hp) as [Hne Hinner].
  apply map_choose in Hne as (f & by_id & Hf).
  destruct (map_choose by_id (Hinner f by_id Hf)) as (i & d & Hi).
  exists f, i, d. rewrite find_call_file_lookup, Hp. simpl. rewrite Hf. simpl.
  done.
Qed.

(** X23. [save_call] touches the calls of its function only: whenever it
    returns, [find_call] for every other function, and every function
    digest, file record, call-file digest and external set, answer as
    before. *)
Theorem save_call_other_functions self name call_id bound result i self' :
  save_call self name call_id bound result = Ok (i, self') →
  (∀ g b, g ≠ name → find_call self' g b = find_call self g b) ∧
  (∀ g, find_function self' g = find_function self g) ∧
  (∀ p, find_file self' p = find_file self p) ∧
  (∀ j g p, find_call_file self' j g p = find_call_file self j g p) ∧
  (∀ j g, find_external_srcs self' j g = find_external_srcs self j g ∧
          find_external_dsts self' j g = find_external_dsts self j g).
Proof.
  intros Hsave.
  apply save_call_frame in Hsave as (Hf & Hfl & Hcf & Hs & Hd & Hcalls).
  unfold find_call, find_function, find_file, find_call_file,
    find_external_srcs, find_external_dsts.
  rewrite Hf, Hfl, Hcf, Hs, Hd. split_and!; try done.
  intros g b Hg. by rewrite Hcalls.
Qed.

End StoreMore.

(** ** The commit of [save]: closed form, interruption, and [load] *)

(** The example serializer reads back what it wrote. *)
Lemma bytes_to_pos_to_bytes (p : positive) :
  Pickle.bytes_to_pos (Pickle.pos_to_bytes p) = p.
Proof. induction p as [p IH|p IH|]; simpl; by rewrite ?IH. Qed.

Lemma loads_dumps `{Countable A} (x : A) : Pickle.loads (Pickle.dumps x) = Ok x.
Proof.
  unfold Pickle.loads, Pickle.dumps.
  by rewrite bytes_to_pos_to_bytes, decode_encode.
Qed.

Section SaveMore.
Import PickleBackend PickleBackendFile.
Context {Value Result Mtime : Type}.
Variable pickle :
  gmap string string * gmap string (list (gmap string Value * Result)) *
  gmap string (Mtime * string) * gmap string (gmap string (gmap Z string)) *
  gmap string (gmap Z (gset string)) * gmap string (gmap Z (gset string))
  → Fs.bytes.
Variable unpickle :
  Fs.bytes →
  res (gmap string string * gmap string (list (gmap string Value * Result)) *
       gmap string (Mtime * string) * gmap string (gmap string (gmap Z string)) *
       gmap string (gmap Z (gset string)) * gmap string (gmap Z (gset string))).

(** Reads a map built by inserts and deletes at a key. *)
Ltac map_read :=
  repeat first
    [ rewrite lookup_insert_eq
    | rewrite lookup_delete_eq
    | rewrite lookup_insert_ne by done
    | rewrite lookup_delete_ne by done ].

(** The files a completed [save] leaves; the permissions stay. *)
Lemma save_files (self : Store Value Result Mtime) (filename : string)
    (σ σ' : Fs.state) :
  save pickle self filename σ = Ok (tt, σ') →
  Fs.files σ' =
    Commit.committed
      (pickle (_functions self, _function_calls self, _files self,
               _call_files self, _external_srcs self, _external_dsts self))
      filename σ ∧
  Fs.permitted σ' = Fs.permitted σ.
Proof.
  pose proof (save_result pickle self filename σ) as Hrun. cbn zeta in Hrun.
  rewrite Hrun. destruct (forallb _ _); [|done]. by intros [= <-].
Qed.

(** [save] completes where every operation is permitted. *)
Lemma save_completes (self : Store Value Result Mtime) (filename : string)
    (σ : Fs.state) :
  (∀ o, Fs.permitted σ o = true) →
  ∃ σ', save pickle self filename σ = Ok (tt, σ').
Proof.
  intros Hperm.
  pose proof (save_result pickle self filename σ) as Hrun. cbn zeta in Hrun.
  rewrite Hrun.
  assert (Hall : ∀ l, forallb (Fs.permitted σ) l = true).
  { induction l as [|o l IH]; [done|]. simpl. by rewrite Hperm, IH. }
  rewrite Hall. by eexists.
Qed.

(** Run to its fourth statement, the interrupted [save] is [save]. *)
Lemma save_upto_all (k : nat) (self : Store Value Result Mtime) (filename : string)
    (σ : Fs.state) :
  (4 ≤ k)%nat →
  save_upto pickle k self filename σ = save pickle self filename σ.
Proof.
  intros Hk. unfold save_upto, save_statements, save.
  rewrite firstn_all2 by (simpl; lia).
  cbn [run_statements]. unfold mbind, Fs_bind, Fs.bind.
  destruct (Fs.write_file _ _ σ) as [[[] σ1]|]; [|done].
  destruct (Fs.path_exists filename σ1) as [[b1 σ2]|]; [|done].
  destruct (Fs.when b1 _ σ2) as [[[] σ3]|]; [|done].
  destruct (Fs.rename _ _ σ3) as [[[] σ4]|]; [|done].
  destruct (Fs.path_exists _ σ4) as [[b2 σ5]|]; [|done].
  by destruct (Fs.when b2 _ σ5) as [[[] σ6]|].
Qed.

(** X11. Of two [save] to the same name the second decides: whenever
    both complete, the files are those that saving the second state
    alone leaves, its pickle under [filename] and neither
    [filename.tmp] nor [filename.old], and no file but the three names
    of the commit is touched. Both complete where the file system
    permits every operation. *)
Theorem save_twice (self1 self2 : Store Value Result Mtime) (filename : string)
    (σ : Fs.state) :
  let s2 := pickle (_functions self2, _function_calls self2, _files self2,
                    _call_files self2, _external_srcs self2, _external_dsts self2) in
  (∀ σ1 σ2,
     save pickle self1 filename σ = Ok (tt, σ1) →
     save pickle self2 filename σ1 = Ok (tt, σ2) →
     Fs.files σ2 =
       <[filename := s2]>
         (delete (filename +:+ ".tmp") (delete (filename +:+ ".old") (Fs.files σ))) ∧
     (∀ σ2', save pickle self2 filename σ = Ok (tt, σ2') →
        Fs.files σ2' = Fs.files σ2) ∧
     (∀ q, q ≠ filename → q ≠ filename +:+ ".tmp" → q ≠ filename +:+ ".old" →
        Fs.files σ2 !! q = Fs.files σ !! q)) ∧
  ((∀ o, Fs.permitted σ o = true) →
   ∃ σ1 σ2,
     save pickle self1 filename σ = Ok (tt, σ1) ∧
     save pickle self2 filename σ1 = Ok (tt, σ2)).
Proof.
  intros s2. destruct (commit_names filename) as (Htmp & Hold & Hto). split.
  - intros σ1 σ2 Hs1 Hs2.
    apply save_files in Hs1 as [Hf1 _]. apply save_files in Hs2 as [Hf2 _].
    fold s2 in Hf2. unfold Commit.committed in Hf1, Hf2.
    assert (Hfiles : Fs.files σ2 =
      <[filename := s2]>
        (delete (filename +:+ ".tmp") (delete (filename +:+ ".old") (Fs.files σ)))).
    { rewrite Hf2, Hf1. apply map_eq. intros q.
      destruct (decide (q = filename)) as [Hq1|Hq1]; [subst q; by map_read|].
      destruct (decide (q = filename +:+ ".tmp")) as [Hq2|Hq2];
        [subst q; by map_read|].
      destruct (decide (q = filename +:+ ".old")) as [Hq3|Hq3];
        [subst q; by map_read|].
      by map_read. }
    split; [done|]. split.
    + intros σ2' Hs2'. apply save_files in Hs2' as [Hf2' _].
      by rewrite Hfiles, Hf2'.
    + intros q Hq1 Hq2 Hq3. rewrite Hfiles. by map_read.
  - intros Hperm.
    destruct (save_completes self1 filename σ Hperm) as [σ1 Hs1].
    destruct (save_completes self2 filename σ1) as [σ2 Hs2].
    + apply save_files in Hs1 as [_ Hp]. intros o. by rewrite Hp.
    + by exists σ1, σ2.
Qed.

(** X12. [save] interrupted between two statements, over a database that
    is there. When the first [k] statements have been done, the previous
    contents are under [filename] until the first rename and under
    [filename.old] from then until the last statement; between the two
    renames there is no [filename], so that a [load] of it fails; from
    the second rename on [filename] holds the pickle of the six
    relations. Run to its fourth statement, it is [save]. The first [k]
    statements are done where the file system permits the first [k]
    steps of the commit. *)
Theorem save_interrupted (self other : Store Value Result Mtime) (filename : string)
    (σ : Fs.state) (c : list byte) (k : nat) :
  let new := pickle (_functions self, _function_calls self, _files self,
                     _call_files self, _external_srcs self, _external_dsts self) in
  let tmp := filename +:+ ".tmp" in
  let old := filename +:+ ".old" in
  let steps := [Fs.Write tmp new; Fs.Rename filename old;
                Fs.Rename tmp filename; Fs.Remove old] in
  Fs.files σ !! filename = Some c →
  (∀ σk,
     save_upto pickle k self filename σ = Ok (tt, σk) →
     match k with
     | 0%nat => σk = σ
     | 1%nat =>
         Fs.files σk !! filename = Some c ∧
         Fs.files σk !! tmp = Some new
     | 2%nat =>
         Fs.files σk !! filename = None ∧
         Fs.files σk !! old = Some c ∧
         Fs.files σk !! tmp = Some new ∧
         load unpickle other filename σk = Raise OSError
     | 3%nat =>
         Fs.files σk !! filename = Some new ∧
         Fs.files σk !! old = Some c ∧
         Fs.files σk !! tmp = None
     | _ =>
         save pickle self filename σ = Ok (tt, σk) ∧
         Fs.files σk !! filename = Some new ∧
         Fs.files σk !! old = None ∧
         Fs.files σk !! tmp = None
     end) ∧
  ((∀ o, o ∈ take k steps → Fs.permitted σ o = true) →
   ∃ σk, save_upto pickle k self filename σ = Ok (tt, σk) ∧
         Fs.trace σk = Fs.trace σ ++ take k steps).
Proof.
  intros new tmp old steps Hpath.
  destruct (commit_names filename) as (Htmp & Hold & Hto).
  assert (Htmp' : filename ≠ filename +:+ ".tmp") by done.
  assert (Hold' : filename ≠ filename +:+ ".old") by done.
  assert (Hto' : filename +:+ ".old" ≠ filename +:+ ".tmp") by done.
  assert (Hsteps : Commit.steps new filename σ = steps).
  { unfold Commit.steps. rewrite Hpath.
    by rewrite bool_decide_eq_true_2 by eauto. }
  split.
  - intros σk. destruct k as [|[|[|[|k]]]].
    + by intros [= <-].
    + unfold save_upto, save_statements, dumps. fold new tmp old.
      cbn [take run_statements]. subst tmp old.
      destruct (Fs.permitted σ (Fs.Write (filename +:+ ".tmp") new)) eqn:Hw;
        fs_unfold; repeat fs_step; [|done].
      intros [= <-]. cbn [Fs.files]. split; by repeat fs_step.
    + unfold save_upto, save_statements, dumps. fold new tmp old.
      cbn [take run_statements]. subst tmp old.
      destruct (Fs.permitted σ (Fs.Write (filename +:+ ".tmp") new)) eqn:Hw;
        destruct (Fs.permitted σ (Fs.Rename filename (filename +:+ ".old"))) eqn:Hr1;
        fs_unfold; repeat fs_step; try done.
      intros [= <-]. cbn [Fs.files]. split_and!; try by repeat fs_step.
      unfold load, Fs.bind, Fs.read_file. cbn [Fs.files]. by repeat fs_step.
    + unfold save_upto, save_statements, dumps. fold new tmp old.
      cbn [take run_statements]. subst tmp old.
      destruct (Fs.permitted σ (Fs.Write (filename +:+ ".tmp") new)) eqn:Hw;
        destruct (Fs.permitted σ (Fs.Rename filename (filename +:+ ".old"))) eqn:Hr1;
        destruct (Fs.permitted σ (Fs.Rename (filename +:+ ".tmp") filename)) eqn:Hr2;
        fs_unfold; repeat fs_step; try done.
      intros [= <-]. cbn [Fs.files]. split_and!; by repeat fs_step.
    + rewrite save_upto_all by lia. intros Hsave. split; [done|].
      apply save_files in Hsave as [Hf _]. fold new in Hf. rewrite Hf.
      unfold Commit.committed. subst tmp old. split_and!; by map_read.
  - intros Hperm. destruct k as [|[|[|[|k]]]].
    + exists σ. split; [done|]. by rewrite app_nil_r.
    + unfold save_upto, save_statements, dumps. fold new tmp old.
      cbn [take run_statements]. cbn [take] in Hperm.
      assert (Hw : Fs.permitted σ (Fs.Write tmp new) = true)
        by (apply Hperm; repeat constructor).
      subst tmp old steps. fs_unfold; repeat fs_step.
      eexists. split; [reflexivity|]. done.
    + unfold save_upto, save_statements, dumps. fold new tmp old.
      cbn [take run_statements]. cbn [take] in Hperm.
      assert (Hw : Fs.permitted σ (Fs.Write tmp new) = true)
        by (apply Hperm; repeat constructor).
      assert (Hr1 : Fs.permitted σ (Fs.Rename filename old) = true)
        by (apply Hperm; repeat constructor).
      subst tmp old steps. fs_unfold; repeat fs_step.
      eexists. split; [reflexivity|]. cbn [Fs.trace take]. by rewrite <- !app_assoc.
    + unfold save_upto, save_statements, dumps. fold new tmp old.
      cbn [take run_statements]. cbn [take] in Hperm.
      assert (Hw : Fs.permitted σ (Fs.Write tmp new) = true)
        by (apply Hperm; repeat constructor).
      assert (Hr1 : Fs.permitted σ (Fs.Rename filename old) = true)
        by (apply Hperm; repeat constructor).
      assert (Hr2 : Fs.permitted σ (Fs.Rename tmp filename) = true)
        by (apply Hperm; repeat constructor).
      subst tmp old steps. fs_unfold; repeat fs_step.
      eexists. split; [reflexivity|]. cbn [Fs.trace take]. by rewrite <- !app_assoc.
    + rewrite save_upto_all by lia.
      pose proof (save_result pickle self filename σ) as Hrun. cbn zeta in Hrun.
      fold new in Hrun. rewrite Hsteps in Hrun. rewrite Hrun.
      rewrite firstn_all2 in Hperm by (simpl; lia).
      rewrite firstn_all2 by (simpl; lia).
      assert (Hall : forallb (Fs.permitted σ) steps = true).
      { apply forallb_forall. intros o Ho. apply Hperm. by apply list_elem_of_In. }
      rewrite Hall. eexists. split; [reflexivity|]. done.
Qed.

(** X13. [load] after a [save] that completed gives the saved store back,
    whatever the store it is loaded into held, and changes no file,
    provided the file may be read and unpickling gives back the tuple of
    the six relations from its pickle. *)
Theorem save_then_load (self other : Store Value Result Mtime) (filename : string)
    (σ σ' : Fs.state) :
  save pickle self filename σ = Ok (tt, σ') →
  Fs.permitted σ' (Fs.Read filename) = true →
  unpickle (pickle (_functions self, _function_calls self, _files self,
                    _call_files self, _external_srcs self, _external_dsts self))
    = Ok (_functions self, _function_calls self, _files self,
          _call_files self, _external_srcs self, _external_dsts self) →
  ∃ σ'',
    load unpickle other filename σ' = Ok (self, σ'') ∧
    Fs.files σ'' = Fs.files σ' ∧
    Fs.trace σ'' = Fs.trace σ' ++ [Fs.Read filename].
Proof.
  intros Hsave Hread Hinv. apply save_files in Hsave as [Hfiles _].
  assert (Hnew : Fs.files σ' !! filename =
    Some (pickle (_functions self, _function_calls self, _files self,
                  _call_files self, _external_srcs self, _external_dsts self)))
    by (rewrite Hfiles; apply lookup_insert_eq).
  unfold load, Fs.bind, Fs.read_file. rewrite Hnew, Hread, Hinv.
  eexists. split; [by destruct self|done].
Qed.

End SaveMore.

(** ** The console: buffered blocks and the line of a check *)

Section ConsoleMore.
Import Console CheckRuns LogScope.



(** X15. A [check] without result followed by [passed], at verbosity 0
    and with one scheduler thread: stdout gets the label and the answer
    on one line, the newline of the [check] being kept from it, while the
    log file gets that newline too, and so the label and the answer on
    two lines. *)
Theorem check_then_passed env self msg color answer answer_color :
  scheduler_count env = 1 →
  verbose self = 0 →
  let label := check_label (check_maxlen self (check_msg env self msg))
                           (check_msg env self msg) in
  let paint s c := if nocolor self then s else color_str (win32 env) s c in
  let self' := passed env (check env self msg None color 0) answer answer_color in
  logfile self' = logfile self +:+ label +:+ nl +:+ answer +:+ nl ∧
  stdout self' = stdout self +:+ paint label color +:+ paint answer answer_color +:+ nl.
Proof.
  intros Hcount Hv label paint. simpl.
  unfold passed, log, check, write.
  rewrite !bool_decide_eq_true_2 by done. cbn [negb orb].
  fold label. split.
  - rewrite !_write_logfile. unfold check_maxlen.
    case_bool_decide; simpl; by rewrite !append_assoc.
  - rewrite !_write_stdout. unfold shown. simpl.
    assert (Hvm : verbose (check_maxlen self (check_msg env self msg)) = 0)
      by (unfold check_maxlen; by case_bool_decide).
    assert (Hnm : nocolor (check_maxlen self (check_msg env self msg)) = nocolor self)
      by (unfold check_maxlen; by case_bool_decide).
    assert (Hsm : stdout (check_maxlen self (check_msg env self msg)) = stdout self)
      by (unfold check_maxlen; by case_bool_decide).
    rewrite Hvm, Hnm, Hsm.
    rewrite !bool_decide_eq_true_2 by lia.
    rewrite bool_decide_eq_false_2 by lia.
    unfold paint. destruct (nocolor self); simpl;
      by rewrite ?append_empty_r, ?append_assoc.
Qed.

End ConsoleMore.

(** ** The dependency extractor: what the parse gives *)

Section OcamldepMore.
Import Ocamldep.

Lemma add_paths_spec (paths deps : list (option string)) :
  NoDup paths →
  NoDup (add_paths paths deps) ∧
  ∀ x, x ∈ add_paths paths deps ↔ x ∈ paths ∨ x ∈ deps.
Proof.
  unfold add_paths. revert paths.
  induction deps as [|dep deps IH]; intros paths Hnd; simpl.
  - split; [done|]. intros x. split; [by left|]. intros [?|Hx]; [done|].
    by apply elem_of_nil in Hx.
  - case_bool_decide as Hin.
    + destruct (IH paths Hnd) as [Hnd' Hel]. split; [done|].
      intros x. rewrite Hel, elem_of_cons. split.
      * intros [?|?]; [by left|by right; right].
      * intros [?|[->|?]]; [by left|by left|by right].
    + assert (Hnd2 : NoDup (paths ++ [dep])).
      { apply NoDup_app. split_and!; [done| |apply NoDup_singleton].
        intros x Hx Hx'. apply list_elem_of_singleton in Hx' as ->. done. }
      destruct (IH (paths ++ [dep]) Hnd2) as [Hnd' Hel]. split; [done|].
      intros x. rewrite Hel, elem_of_app, list_elem_of_singleton, elem_of_cons.
      split.
      * intros [[?| ->]|?]; [by left|by right; left|by right; right].
      * intros [?|[->|?]]; [by left; left|by left; right|by right].
Qed.

(** X16. The list [__call__] returns has no path twice, and holds the
    paths that the parsed text gives for [src], each of them, and no
    other. *)
Theorem call_paths_nodup env self src includes flags paths :
  call env self src includes flags = Ok paths →
  NoDup paths ∧
  ∃ text d,
    execute env (command self src includes flags) = Ok text ∧
    parse_depends text = Ok d ∧
    ∀ x, x ∈ paths ↔ x ∈ default [] (d !! Some src).
Proof.
  unfold call.
  destruct (execute env (command self src includes flags)) as [text|e] eqn:Hexec;
    simpl; [|done].
  destruct (parse_depends text) as [d|e] eqn:Hparse; simpl; [|done].
  destruct (listdir env _) as [dirs|e]; simpl; [|done].
  intros [= <-].
  destruct (add_paths_spec [] (default [] (d !! Some src))) as [Hnd Hel];
    [apply NoDup_nil_2|].
  split; [done|]. exists text, d. split; [done|]. split; [done|].
  intros x. rewrite Hel. split; [|by right].
  intros [Hx|?]; [|done]. by apply elem_of_nil in Hx.
Qed.

(** The loop that fills [d], from a dictionary and over some lines. *)
Lemma parse_lines_raise e (ls : list string) :
  foldl (λ d line, res_bind d (λ d, parse_line d line)) (Raise e) ls = Raise e.
Proof. induction ls as [|l ls IH]; simpl; [done|]. apply IH. Qed.

Lemma parse_lines_blank d0 (ls : list string) :
  Exists (λ l, split l = []) ls →
  foldl (λ d line, res_bind d (λ d, parse_line d line)) (Ok d0) ls = Raise ValueError.
Proof.
  revert d0. induction ls as [|l ls IH]; intros d0 Hex; simpl.
  - by apply Exists_nil in Hex.
  - unfold parse_line at 2. destruct (split l) as [|w ws] eqn:Hl.
    + apply parse_lines_raise.
    + apply IH. apply Exists_cons in Hex as [Hex|Hex]; [congruence|done].
Qed.

Lemma parse_lines_ok d0 (ls : list string) :
  Forall (λ l, split l ≠ []) ls →
  ∃ d, foldl (λ d line, res_bind d (λ d, parse_line d line)) (Ok d0) ls = Ok d.
Proof.
  revert d0. induction ls as [|l ls IH]; intros d0 Hall; simpl.
  - by exists d0.
  - apply Forall_cons in Hall as [Hl Hall].
    unfold parse_line at 2. destruct (split l) as [|w ws]; [done|].
    by apply IH.
Qed.

(** X17. A line without a word in what the command printed, once the
    continued lines are joined, makes the parse, and with it [__call__],
    raise [ValueError]; without such a line the parse gives a
    dictionary. *)
Theorem parse_depends_blank_line env self src includes flags text :
  execute env (command self src includes flags) = Ok text →
  (Exists (λ l, split l = []) (readlines (join_continued text)) →
     parse_depends text = Raise ValueError ∧
     call env self src includes flags = Raise ValueError) ∧
  (Forall (λ l, split l ≠ []) (readlines (join_continued text)) →
     ∃ d, parse_depends text = Ok d).
Proof.
  intros Hexec. split.
  - intros Hex. assert (Hp : parse_depends text = Raise ValueError)
      by (by apply parse_lines_blank).
    split; [done|]. unfold call. rewrite Hexec. simpl. by rewrite Hp.
  - intros Hall. by apply parse_lines_ok.
Qed.

Lemma parse_lines_app d0 (ls1 ls2 : list string) :
  foldl (λ d line, res_bind d (λ d, parse_line d line)) (Ok d0) (ls1 ++ ls2) =
  res_bind (foldl (λ d line, res_bind d (λ d, parse_line d line)) (Ok d0) ls1)
    (λ d, foldl (λ d line, res_bind d (λ d, parse_line d line)) (Ok d) ls2).
Proof.
  rewrite foldl_app.
  destruct (foldl _ (Ok d0) ls1) as [d|e]; simpl; [done|].
  apply parse_lines_raise.
Qed.

Lemma parse_lines_keeps d0 (ls : list string) d k :
  (∀ l w ws, l ∈ ls → split l = w :: ws → fix_ (drop_last w) ≠ k) →
  foldl (λ d line, res_bind d (λ d, parse_line d line)) (Ok d0) ls = Ok d →
  d !! k = d0 !! k.
Proof.
  revert d0. induction ls as [|l ls IH]; intros d0 Hother; simpl.
  - by intros [= <-].
  - unfold parse_line at 2. destruct (split l) as [|w ws] eqn:Hl.
    + by rewrite parse_lines_raise.
    + intros Hd. rewrite (IH (<[fix_ (drop_last w) := fix_ <$> ws]> d0)).
      * apply lookup_insert_ne. apply (Hother l w ws); [by left|done].
      * intros l' w' ws' Hin. apply Hother. by right.
      * done.
Qed.

(** X18. The line read last for a target decides: when a line names a
    target and no later line names a target that [fix] sends to the same
    key, the dictionary holds, for that key, the fixed dependencies of
    that line, whatever earlier lines said. *)
Theorem parse_depends_last_line text ls1 l ls2 w ws d :
  readlines (join_continued text) = ls1 ++ l :: ls2 →
  split l = w :: ws →
  (∀ l' w' ws', l' ∈ ls2 → split l' = w' :: ws' →
     fix_ (drop_last w') ≠ fix_ (drop_last w)) →
  parse_depends text = Ok d →
  d !! fix_ (drop_last w) = Some (fix_ <$> ws).
Proof.
  intros Hlines Hl Hlater. unfold parse_depends. rewrite Hlines.
  rewrite parse_lines_app.
  destruct (foldl _ (Ok ∅) ls1) as [d1|e]; simpl; [|done].
  unfold parse_line at 2. rewrite Hl. intros Hd.
  rewrite (parse_lines_keeps _ ls2 d (fix_ (drop_last w)) Hlater Hd).
  apply lookup_insert_eq.
Qed.

End OcamldepMore.

(** ** Integer type aliases *)

Section CStdMore.
Import CStd.

Lemma add_alias_raise types e ts :
  foldl (add_alias types) (Raise e) ts = Raise e.
Proof. induction ts as [|t ts IH]; simpl; [done|]. apply IH. Qed.

Lemma add_alias_signed types d0 t data sg' :
  types !! t = Some data → signed data = Some sg' →
  add_alias types (Ok d0) t =
    Ok (match d0 !! (size data, sg') with
        | Some _ => d0
        | None => <[(size data, sg') := t]> d0
        end).
Proof.
  intros Ht Hsg. unfold add_alias. simpl. rewrite Ht, Hsg.
  by destruct (d0 !! (size data, sg')).
Qed.

Lemma add_alias_unsigned types d0 t data :
  types !! t = Some data → signed data = None →
  add_alias types (Ok d0) t = Raise KeyError.
Proof. intros Ht Hsg. unfold add_alias. simpl. by rewrite Ht, Hsg. Qed.

Lemma aliases_first types ts d0 d sz sg :
  foldl (add_alias types) (Ok d0) (filter (λ t, is_Some (types !! t)) ts) = Ok d →
  d !! (sz, sg) =
    match d0 !! (sz, sg) with
    | Some t => Some t
    | None => first_with types sz sg ts
    end.
Proof.
  revert d0. induction ts as [|t ts IH]; intros d0; simpl.
  - intros [= <-]. by destruct (d0 !! (sz, sg)).
  - rewrite filter_cons. destruct (types !! t) as [data|] eqn:Ht.
    + rewrite decide_True by eauto. cbn [foldl].
      destruct (signed data) as [sg'|] eqn:Hsg.
      * rewrite (add_alias_signed types d0 t data sg' Ht Hsg).
        destruct (d0 !! (size data, sg')) as [t0|] eqn:Hd0.
        -- intros Hd. rewrite (IH _ Hd).
           destruct (d0 !! (sz, sg)) as [t1|] eqn:Hk; [done|].
           rewrite bool_decide_eq_false_2; [done|].
           intros [<- [= <-]]. congruence.
        -- intros Hd. rewrite (IH _ Hd).
           destruct (decide ((size data, sg') = (sz, sg))) as [[= <- <-]|Hne].
           ++ rewrite lookup_insert_eq, Hd0.
              by rewrite bool_decide_eq_true_2.
           ++ rewrite lookup_insert_ne by done.
              destruct (d0 !! (sz, sg)); [done|].
              rewrite bool_decide_eq_false_2; [done|].
              intros [<- [= <-]]. by apply Hne.
      * rewrite (add_alias_unsigned types d0 t data Ht Hsg).
        by rewrite add_alias_raise.
    + rewrite decide_False by (by intros [? ?]). apply IH.
Qed.

Lemma aliases_total types ts d0 :
  (∀ t data, t ∈ ts → types !! t = Some data → is_Some (signed data)) →
  ∃ d, foldl (add_alias types) (Ok d0) (filter (λ t, is_Some (types !! t)) ts) = Ok d.
Proof.
  revert d0. induction ts as [|t ts IH]; intros d0 Hsg; simpl.
  - by exists d0.
  - rewrite filter_cons. destruct (types !! t) as [data|] eqn:Ht.
    + rewrite decide_True by eauto. cbn [foldl].
      destruct (Hsg t data) as [sg' Hsg']; [by left|done|].
      rewrite (add_alias_signed types d0 t data sg' Ht Hsg').
      apply IH. intros t' data' Hin. apply Hsg. by right.
    + rewrite decide_False by (by intros [? ?]). apply IH.
      intros t' data' Hin. apply Hsg. by right.
Qed.

(** X19. [type_aliases_int] gives, for a size and a signedness, the first
    type of [default_types_int] that was detected with them, so that
    [char] comes before [signed char] and [int] before [long]; it returns
    whenever every detected integer type has its ['signed'] entry. *)
Theorem type_aliases_int_first types :
  (∀ d sz sg, type_aliases_int types = Ok d →
     d !! (sz, sg) = first_with types sz sg default_types_int) ∧
  ((∀ t data, t ∈ default_types_int → types !! t = Some data →
      is_Some (signed data)) →
   ∃ d, type_aliases_int types = Ok d).
Proof.
  unfold type_aliases_int, types_int. split.
  - intros d sz sg Hd. rewrite (aliases_first types _ ∅ d sz sg Hd).
    by rewrite lookup_empty.
  - apply aliases_total.
Qed.

End CStdMore.

(** ** Paths: [splitext], and the names of object files *)

Section PathMore.

Lemma substring_0_all (s : string) (m : nat) :
  (String.length s ≤ m)%nat → substring 0 m s = s.
Proof.
  revert m. induction s as [|c s IH]; intros m Hm; [by destruct m|].
  destruct m as [|m]; simpl in *; [lia|]. rewrite IH; [done|lia].
Qed.

Lemma substring_split (s : string) (n m : nat) :
  (String.length s ≤ n + m)%nat → substring 0 n s +:+ substring n m s = s.
Proof.
  revert n m. induction s as [|c s IH]; intros n m Hm.
  - destruct n, m; done.
  - destruct n as [|n].
    + simpl in Hm. destruct m as [|m]; [lia|]. simpl.
      change ("" +:+ ?x) with x. rewrite substring_0_all; [done|lia].
    + simpl. rewrite append_cons, IH; [done|]. simpl in Hm. lia.
Qed.

Lemma substring_app_l (s t : string) (n m : nat) :
  (n + m ≤ String.length s)%nat → substring n m (s +:+ t) = substring n m s.
Proof.
  revert n m. induction s as [|c s IH]; intros n m Hm.
  - simpl in Hm. assert (n = 0%nat) as -> by lia. assert (m = 0%nat) as -> by lia.
    by destruct t.
  - rewrite append_cons. destruct n as [|n].
    + destruct m as [|m]; [done|]. simpl. rewrite IH; [done|]. simpl in Hm. lia.
    + simpl. apply IH. simpl in Hm. lia.
Qed.

Lemma substring_prefix (s t : string) :
  substring 0 (String.length s) (s +:+ t) = s.
Proof. rewrite substring_app_l by lia. by apply substring_0_all. Qed.

Lemma substring_suffix (s t : string) (m : nat) :
  (String.length t ≤ m)%nat → substring (String.length s) m (s +:+ t) = t.
Proof.
  intros Hm. induction s as [|c s IH].
  - change ("" +:+ t) with t. simpl.
    destruct t as [|c t]; [by destruct m|].
    destruct m as [|m]; simpl in *; [lia|]. rewrite substring_0_all; [done|lia].
  - rewrite append_cons. simpl. apply IH.
Qed.

Lemma substring_get (s : string) (n m : nat) (c : ascii) :
  get n s = Some c → (0 < m)%nat → ∃ rest, substring n m s = String c rest.
Proof.
  revert n. induction s as [|a s IH]; intros n Hget Hm; [by destruct n|].
  destruct n as [|n]; simpl in *.
  - injection Hget as ->. destruct m as [|m]; [lia|]. eauto.
  - by apply IH.
Qed.

Lemma rfind_from_app (c : ascii) (s t : string) (i last : Z) :
  rfind_from c (s +:+ t) i last
    = rfind_from c t (i + Z.of_nat (String.length s)) (rfind_from c s i last).
Proof.
  revert i last. induction s as [|a s IH]; intros i last.
  - change ("" +:+ t) with t. simpl. f_equal. lia.
  - rewrite append_cons. simpl. rewrite IH. f_equal. lia.
Qed.

Lemma rfind_from_absent (c : ascii) (s : string) (i last : Z) :
  all_chars (λ a, negb (bool_decide (a = c))) s = true →
  rfind_from c s i last = last.
Proof.
  revert i last. induction s as [|a s IH]; intros i last Hs; [done|].
  simpl in *. apply andb_true_iff in Hs as [Ha Hs].
  apply negb_true_iff in Ha. rewrite Ha. by apply IH.
Qed.

(** The index found is that of an occurrence, or nothing was found. *)
Lemma rfind_from_found (c : ascii) (s : string) (i last : Z) :
  0 ≤ i →
  rfind_from c s i last = last ∨
  (i ≤ rfind_from c s i last < i + Z.of_nat (String.length s) ∧
   get (Z.to_nat (rfind_from c s i last - i)) s = Some c).
Proof.
  revert i last. induction s as [|a s IH]; intros i last Hi; [by left|].
  simpl rfind_from. case_bool_decide as Ha.
  - subst a. destruct (IH (i + 1) i) as [->|[Hr Hget]]; [lia| |].
    + right. split; [simpl String.length; lia|].
      by rewrite Z.sub_diag.
    + right. split; [simpl String.length; lia|].
      replace (Z.to_nat (rfind_from c s (i + 1) i - i))
        with (S (Z.to_nat (rfind_from c s (i + 1) i - (i + 1)))) by lia.
      done.
  - destruct (IH (i + 1) last) as [->|[Hr Hget]]; [lia|by left|].
    right. split; [simpl String.length; lia|].
    replace (Z.to_nat (rfind_from c s (i + 1) last - i))
      with (S (Z.to_nat (rfind_from c s (i + 1) last - (i + 1)))) by lia.
    done.
Qed.

Lemma rfind_bounds (c : ascii) (s : string) :
  -1 ≤ rfind c s < Z.of_nat (String.length s) ∧
  (0 ≤ rfind c s → get (Z.to_nat (rfind c s)) s = Some c).
Proof.
  unfold rfind. destruct (rfind_from_found c s 0 (-1)) as [->|[Hr Hget]]; [lia| |].
  - split; lia.
  - split; [lia|]. intros _. by rewrite Z.sub_0_r in Hget.
Qed.

(** X20. [splitext] loses nothing: the root followed by the extension is
    the path; and the extension is empty or begins with a period. *)
Theorem splitext_join (p : string) :
  (splitext p).1 +:+ (splitext p).2 = p ∧
  ((splitext p).2 = "" ∨ ∃ rest, (splitext p).2 = String "." rest).
Proof.
  unfold splitext.
  destruct (rfind_bounds "/" p) as [Hsep _].
  destruct (rfind_bounds "." p) as [Hdot Hget].
  case_bool_decide as Hlt; [|split; [apply append_empty_r|by left]].
  destruct (all_chars _ _); [split; [apply append_empty_r|by left]|].
  simpl. split.
  - unfold slice, slice_from. rewrite Z.sub_0_r. simpl Z.to_nat at 1.
    apply substring_split. lia.
  - right. unfold slice_from. apply substring_get; [apply Hget; lia|lia].
Qed.

(** X21. A path made of a root whose last component is not only periods,
    a period, and a word without period or slash, is split back into the
    root and the extension. *)
Theorem splitext_append (base word : string) :
  all_chars (λ c, bool_decide (c = "."%char))
            (slice base (rfind "/" base + 1) (len base)) = false →
  all_chars (λ a, negb (bool_decide (a = "."%char))) word = true →
  all_chars (λ a, negb (bool_decide (a = "/"%char))) word = true →
  splitext (base +:+ String "." word) = (base, String "." word).
Proof.
  intros Hname Hdots Hslashes.
  destruct (rfind_bounds "/" base) as [Hsep _].
  assert (Hrdot : rfind "." (base +:+ String "." word) = len base).
  { unfold rfind. rewrite rfind_from_app. simpl.
    rewrite rfind_from_absent by done. unfold len. lia. }
  assert (Hrsep : rfind "/" (base +:+ String "." word) = rfind "/" base).
  { unfold rfind at 1. rewrite rfind_from_app. simpl.
    by rewrite rfind_from_absent. }
  unfold splitext. rewrite Hrdot, Hrsep.
  rewrite bool_decide_eq_true_2 by (unfold len; lia).
  assert (Hslice : slice (base +:+ String "." word) (rfind "/" base + 1) (len base)
                   = slice base (rfind "/" base + 1) (len base)).
  { unfold slice. apply substring_app_l. unfold len. lia. }
  rewrite Hslice, Hname. f_equal.
  - unfold slice, len. rewrite Z.sub_0_r, Nat2Z.id. simpl Z.to_nat.
    apply substring_prefix.
  - unfold slice_from, len. rewrite Nat2Z.id. apply substring_suffix.
    rewrite append_length. lia.
Qed.

End PathMore.

(** ** The compiler driver and the dependency extractor agree on names *)

Section BuilderMore.
Import OcamlBuilder.


End BuilderMore.

(** ** The further properties on concrete inputs *)

Module MoreExamples.
Import PickleBackend StoreOps PickleBackendFile Console CheckRuns LogScope.

(** [save_file_find_file] at a concrete input. *)
Lemma save_file_find_file_witness :
  let self : Store Z Z Z := save_file PickleBackend.init "b.c" 2 "y" in
  find_file (save_file self "a.c" 1 "x") "a.c" = (Some 1, Some "x") ∧
  find_file (save_file self "a.c" 1 "x") "b.c" = (Some 2, Some "y").
Proof.
  intros self.
  destruct (save_file_find_file self "a.c" 1 "x") as (Hfound & Hother & _).
  split; [exact Hfound|]. by rewrite (Hother "b.c").
Defined.

(** [delete_file_forgets] at a concrete input. *)
Lemma delete_file_forgets_witness :
  let self : Store Z Z Z :=
    save_call_file (save_file PickleBackend.init "a.c" 1 "x") 0 "f" "a.c" "x" in
  find_file (delete_file self "a.c") "a.c" = (None, None) ∧
  find_call_file (delete_file self "a.c") 0 "f" "a.c" = None.
Proof.
  intros self.
  destruct (delete_file_forgets self "a.c") as (Hfile & Hcall & _).
  split; [exact Hfile | exact (Hcall 0 "f")].
Defined.

(** [save_call_file_find_call_file] at a concrete input. *)
Lemma save_call_file_find_call_file_witness :
  let self : Store Z Z Z := save_call_file PickleBackend.init 0 "f" "a.c" "x" in
  find_call_file (save_call_file self 1 "f" "a.c" "y") 1 "f" "a.c" = Some "y" ∧
  find_call_file (save_call_file self 1 "f" "a.c" "y") 0 "f" "a.c" = Some "x".
Proof.
  intros self.
  destruct (save_call_file_find_call_file self 1 "f" "a.c" "y") as [Hfound Hother].
  split; [exact Hfound|]. by rewrite (Hother 0 "f" "a.c").
Defined.

(** [save_external_files_found] at a concrete input. *)
Lemma save_external_files_found_witness :
  let self : Store Z Z Z := PickleBackend.init in
  let self' := save_external_files self "f" 0 {[ "a.h" ]} {[ "a.o" ]}
                 [("a.h", "x"); ("a.o", "y")] in
  find_external_srcs self' 0 "f" = {[ "a.h" ]} ∧
  find_external_dsts self' 0 "f" = {[ "a.o" ]} ∧
  find_call_file self' 0 "f" "a.o" = Some "y".
Proof.
  intros self self'.
  destruct (save_external_files_found self "f" 0 {[ "a.h" ]} {[ "a.o" ]}
              [("a.h", "x"); ("a.o", "y")]) as (Hsrcs & Hdsts & _ & Hdigests).
  split; [exact Hsrcs|]. split; [exact Hdsts|].
  apply Hdigests.
  - simpl. apply NoDup_cons. split; [|apply NoDup_singleton].
    intros Hin. apply list_elem_of_singleton in Hin. discriminate Hin.
  - apply elem_of_cons. right. apply elem_of_cons. by left.
Defined.

(** [save_function_twice] at a concrete input. *)
Lemma save_function_twice_witness :
  let self : Store Z Z Z := save_call_file PickleBackend.init 0 "f" "a.c" "x" in
  save_function (save_function self "f" "d1") "f" "d2" = save_function self "f" "d2".
Proof.
  intros self.
  destruct (save_function_twice self "f" "d1" "d2") as (_ & Htwice & _).
  exact Htwice.
Defined.

(** [save_call_keeps_ids] at a concrete input. *)
Lemma save_call_keeps_ids_witness :
  let datas : list (gmap string Z * Z) := [({[ "x" := 1 ]}, 10); ({[ "x" := 2 ]}, 20)] in
  let self : Store Z Z Z := mkStore ∅ {[ "f" := datas ]} ∅ ∅ ∅ ∅ in
  let self' := set_function_calls self
                 {[ "f" := [({[ "x" := 3 ]}, 30); ({[ "x" := 2 ]}, 20)] ]} in
  ∃ datas' k,
    _function_calls self' !! "f" = Some datas' ∧
    py_index (length datas') 0 = Some k ∧
    (length datas ≤ length datas')%nat ∧
    ∀ j, j ≠ k → datas' !! j = datas !! j.
Proof.
  intros datas self self'.
  apply (save_call_keeps_ids self "f" (Some 0) {[ "x" := 3 ]} 30 0 self' datas);
    reflexivity.
Defined.

(** [save_call_overwrite_find_call] at a concrete input. *)
Lemma save_call_overwrite_find_call_witness :
  let datas : list (gmap string Z * Z) := [({[ "x" := 1 ]}, 10); ({[ "x" := 2 ]}, 20)] in
  let self : Store Z Z Z := mkStore ∅ {[ "f" := datas ]} ∅ ∅ ∅ ∅ in
  ∃ self',
    save_call self "f" (Some 1) {[ "x" := 2 ]} 21 = Ok (1, self') ∧
    find_call self' "f" {[ "x" := 2 ]} = (Some 1, Some 21).
Proof.
  intros datas self.
  apply (save_call_overwrite_find_call self "f" 1 {[ "x" := 2 ]} 21 datas 1%nat);
    [reflexivity | reflexivity |].
  intros [|j] b r Hj Hl; [|lia].
  injection Hl as <- _. Examples.bound_ne "x".
Defined.

(** [save_call_negative_id] at a concrete input: the last call
    overwritten by other bound arguments, and by those of the first
    call. *)
Lemma save_call_negative_id_witness :
  let datas : list (gmap string Z * Z) := [({[ "x" := 1 ]}, 10); ({[ "x" := 2 ]}, 20)] in
  let self : Store Z Z Z := mkStore ∅ {[ "f" := datas ]} ∅ ∅ ∅ ∅ in
  (∃ self',
     save_call self "f" (Some (-1)) {[ "x" := 3 ]} 30 = Ok (-1, self') ∧
     find_call self' "f" {[ "x" := 3 ]} = (Some 1, Some 30)) ∧
  (∃ self',
     save_call self "f" (Some (-1)) {[ "x" := 1 ]} 30 = Ok (-1, self') ∧
     find_call self' "f" {[ "x" := 1 ]} = (Some 0, Some 10) ∧
     find_call self' "f" {[ "x" := 1 ]} ≠ (Some (-1), Some 30)).
Proof.
  intros datas self. split.
  - destruct (save_call_negative_id self "f" (-1) {[ "x" := 3 ]} 30 datas)
      as (self' & Hsave & _ & _ & Hfind & _); [reflexivity | simpl; lia |].
    exists self'. split; [exact Hsave|]. apply Hfind.
    intros [|[|j]] b r Hj Hl; [|simpl in Hj; lia..].
    injection Hl as <- _. Examples.bound_ne "x".
  - destruct (save_call_negative_id self "f" (-1) {[ "x" := 1 ]} 30 datas)
      as (self' & Hsave & Hlist & _ & _ & Hne); [reflexivity | simpl; lia |].
    exists self'. split; [exact Hsave|]. split; [|exact Hne].
    unfold find_call. rewrite Hlist. reflexivity.
Defined.

(** [save_function_then_save_call] at a concrete input. *)
Lemma save_function_then_save_call_witness :
  let self : Store Z Z Z :=
    mkStore {[ "f" := "d0" ]} {[ "f" := [({[ "x" := 1 ]}, 10); ({[ "x" := 2 ]}, 20)] ]}
            ∅ ∅ ∅ ∅ in
  ∃ self',
    save_call (save_function self "f" "d1") "f" (Some 1) {[ "x" := 2 ]} 21
      = Ok (0, self') ∧
    find_call self' "f" {[ "x" := 2 ]} = (Some 0, Some 21).
Proof.
  intros self.
  destruct (save_function_then_save_call self "f" "d1" (Some 1) {[ "x" := 2 ]} 21)
    as (self' & Hsave & _ & _ & Hfind).
  exists self'. split; [exact Hsave | exact Hfind].
Defined.

(** [reachable_call_files_recorded] at a concrete input. *)
Lemma reachable_call_files_recorded_witness :
  let self : Store Z Z Z := save_call_file PickleBackend.init 0 "f" "a.c" "x" in
  ∃ f i d, find_call_file self i f "a.c" = Some d.
Proof.
  intros self.
  apply (reachable_call_files_recorded self "a.c").
  - eapply (reachable_step _ (SaveCallFile 0 "f" "a.c" "x"));
      [apply reachable_init | reflexivity].
  - eexists. reflexivity.
Defined.

(** [save_twice] at a concrete input. *)
Lemma save_twice_witness :
  let self1 : Store Z Z Z := PickleBackend.init in
  let self2 : Store Z Z Z := save_function PickleBackend.init "f" "d" in
  let s2 := Pickle.dumps (_functions self2, _function_calls self2, _files self2,
                          _call_files self2, _external_srcs self2,
                          _external_dsts self2) in
  let σ := Fs.mkState {[ "notes.txt" := [x07]%byte ]} [] (λ _, true) in
  ∃ σ1 σ2,
    save Pickle.dumps self1 "fbuild.db" σ = Ok (tt, σ1) ∧
    save Pickle.dumps self2 "fbuild.db" σ1 = Ok (tt, σ2) ∧
    Fs.files σ2 = {[ "fbuild.db" := s2; "notes.txt" := [x07]%byte ]} ∧
    Fs.files σ2 !! "notes.txt" = Some [x07]%byte.
Proof.
  intros self1 self2 s2 σ.
  destruct (save_twice Pickle.dumps self1 self2 "fbuild.db" σ) as [Hfiles Hrun].
  destruct Hrun as (σ1 & σ2 & Hs1 & Hs2); [done|].
  destruct (Hfiles σ1 σ2 Hs1 Hs2) as (Hf & _ & Hother).
  exists σ1, σ2. split; [exact Hs1|]. split; [exact Hs2|]. split.
  - rewrite Hf. apply map_eq. intros q.
    destruct (decide (q = "fbuild.db")) as [->|Hq1]; [reflexivity|].
    destruct (decide (q = "notes.txt")) as [->|Hq2]; [reflexivity|].
    rewrite !lookup_insert_ne by done.
    destruct (decide (q = "fbuild.db.tmp")) as [->|Hq3];
      [by rewrite lookup_delete_eq|].
    rewrite lookup_delete_ne by done.
    destruct (decide (q = "fbuild.db.old")) as [->|Hq4];
      [by rewrite lookup_delete_eq|].
    rewrite lookup_delete_ne by done. reflexivity.
  - by rewrite (Hother "notes.txt").
Defined.

(** [save_interrupted] at a concrete input: stopped between the two
    renames. *)
Lemma save_interrupted_witness :
  let self : Store Z Z Z := save_function PickleBackend.init "f" "d" in
  let new := Pickle.dumps (_functions self, _function_calls self, _files self,
                           _call_files self, _external_srcs self,
                           _external_dsts self) in
  let σ := Fs.mkState {[ "fbuild.db" := [x00]%byte ]} [] (λ _, true) in
  ∃ σk,
    save_upto Pickle.dumps 2 self "fbuild.db" σ = Ok (tt, σk) ∧
    Fs.files σk !! "fbuild.db" = None ∧
    Fs.files σk !! "fbuild.db.old" = Some [x00]%byte ∧
    Fs.files σk !! "fbuild.db.tmp" = Some new ∧
    load Pickle.loads (@PickleBackend.init Z Z Z) "fbuild.db" σk = Raise OSError.
Proof.
  intros self new σ.
  destruct (save_interrupted Pickle.dumps Pickle.loads self
              (@PickleBackend.init Z Z Z) "fbuild.db" σ [x00]%byte 2)
    as [Htable Hrun]; [reflexivity|].
  destruct Hrun as (σk & Hrun & _); [done|].
  destruct (Htable σk Hrun) as (Hnone & Hold & Htmp & Hload).
  exists σk. split; [exact Hrun|]. split; [exact Hnone|].
  split; [exact Hold|]. split; [exact Htmp | exact Hload].
Defined.

(** [save_then_load] at a concrete input: a store with a function, a call
    and a file, loaded into an empty one. *)
Lemma save_then_load_witness :
  let self : Store Z Z Z :=
    mkStore {[ "f" := "d" ]} {[ "f" := [({[ "x" := 1 ]}, 10)] ]}
            {[ "a.c" := (3, "x") ]} ∅ ∅ ∅ in
  let s := Pickle.dumps (_functions self, _function_calls self, _files self,
                         _call_files self, _external_srcs self,
                         _external_dsts self) in
  let σ := Fs.mkState ∅ [] (λ _, true) in
  let σ' := Fs.mkState {[ "fbuild.db" := s ]}
              [Fs.Write "fbuild.db.tmp" s; Fs.Rename "fbuild.db.tmp" "fbuild.db"]
              (λ _, true) in
  save Pickle.dumps self "fbuild.db" σ = Ok (tt, σ') ∧
  ∃ σ'',
    load Pickle.loads PickleBackend.init "fbuild.db" σ' = Ok (self, σ'') ∧
    Fs.files σ'' = Fs.files σ'.
Proof.
  intros self s σ σ'.
  assert (Hsave : save Pickle.dumps self "fbuild.db" σ = Ok (tt, σ'))
    by reflexivity.
  split; [exact Hsave|].
  destruct (save_then_load Pickle.dumps Pickle.loads self PickleBackend.init
              "fbuild.db" σ σ' Hsave)
    as (σ'' & Hload & Hfiles & _); [reflexivity | by vm_compute |].
  exists σ''. split; [exact Hload | exact Hfiles].
Defined.


(** [check_then_passed] at a concrete input. *)
Lemma check_then_passed_witness :
  let env := Console.mkEnv false 1 0 "MainThread" in
  let self := Console.init "" 0 true false in
  let self' := passed env (check env self "checking for gcc" None None 0)
                      "ok" (Some "green") in
  logfile self' = "checking for gcc         : " +:+ nl +:+ "ok" +:+ nl ∧
  stdout self' = "checking for gcc         : ok" +:+ nl.
Proof.
  intros env self self'.
  destruct (check_then_passed env self "checking for gcc" None "ok" (Some "green"))
    as [Hlog Hout]; [reflexivity | reflexivity |].
  split; [exact Hlog | exact Hout].
Defined.

(** [call_paths_nodup] at a concrete input. *)
Lemma call_paths_nodup_witness :
  let text := "foo.cmo: bar.cmi baz.cmo bar.cmi" +:+ nl in
  let env := Ocamldep.mkEnv (λ _, Ok text) (λ _, Ok []) in
  let self := Ocamldep.mkOcamldep "ocamldep" [] in
  Ocamldep.call env self "foo.ml" [] [] = Ok [Some "bar.mli"; Some "baz.ml"] ∧
  NoDup [Some "bar.mli"; Some "baz.ml"].
Proof.
  intros text env self.
  assert (Hcall : Ocamldep.call env self "foo.ml" [] []
                  = Ok [Some "bar.mli"; Some "baz.ml"]) by (by vm_compute).
  destruct (call_paths_nodup env self "foo.ml" [] [] [Some "bar.mli"; Some "baz.ml"] Hcall)
    as [Hnd _].
  split; [exact Hcall | exact Hnd].
Defined.

(** [parse_depends_blank_line] at a concrete input. *)
Lemma parse_depends_blank_line_witness :
  let text := "foo.cmo: bar.cmi" +:+ nl +:+ nl +:+ "bar.cmo:" +:+ nl in
  let env := Ocamldep.mkEnv (λ _, Ok text) (λ _, Ok []) in
  let self := Ocamldep.mkOcamldep "ocamldep" [] in
  Ocamldep.call env self "foo.ml" [] [] = Raise ValueError.
Proof.
  intros text env self.
  destruct (parse_depends_blank_line env self "foo.ml" [] [] text) as [Hblank _];
    [reflexivity|].
  apply Hblank.
  apply Exists_cons. right. apply Exists_cons. left. by vm_compute.
Defined.

(** [parse_depends_last_line] at a concrete input: the rule for the
    native object comes after the rule for the bytecode object of the
    same source, and decides. *)
Lemma parse_depends_last_line_witness :
  let text := "foo.cmo: bar.cmi" +:+ nl +:+ "foo.cmx: bar.cmx" +:+ nl in
  ∃ d, Ocamldep.parse_depends text = Ok d ∧ d !! Some "foo.ml" = Some [Some "bar.ml"].
Proof.
  intros text.
  destruct (Ocamldep.parse_depends text) as [d|e] eqn:Hd; [|by vm_compute in Hd].
  exists d. split; [reflexivity|].
  apply (parse_depends_last_line text ["foo.cmo: bar.cmi" +:+ nl]
           ("foo.cmx: bar.cmx" +:+ nl) [] "foo.cmx:" ["bar.cmx"] d);
    [by vm_compute | by vm_compute | | exact Hd].
  intros l' w' ws' Hin. by apply elem_of_nil in Hin.
Defined.

(** [type_aliases_int_first] at a concrete input. *)
Lemma type_aliases_int_first_witness :
  let types : gmap string CStd.type_data :=
    {[ "char" := CStd.mkTypeData 1 1 (Some true);
       "signed char" := CStd.mkTypeData 1 1 (Some true);
       "unsigned char" := CStd.mkTypeData 1 1 (Some false) ]} in
  ∃ d, CStd.type_aliases_int types = Ok d ∧
    d !! (1, true) = Some "char" ∧ d !! (1, false) = Some "unsigned char".
Proof.
  intros types.
  destruct (CStd.type_aliases_int types) as [d|e] eqn:Hd; [|by vm_compute in Hd].
  destruct (type_aliases_int_first types) as [Hfirst _].
  exists d. split; [reflexivity|].
  split.
  - rewrite (Hfirst d 1 true Hd). by vm_compute.
  - rewrite (Hfirst d 1 false Hd). by vm_compute.
Defined.

(** [splitext_join] at a concrete input. *)
Lemma splitext_join_witness :
  (splitext "src/lib.tar.gz").1 +:+ (splitext "src/lib.tar.gz").2 = "src/lib.tar.gz".
Proof. exact (proj1 (splitext_join "src/lib.tar.gz")). Defined.

(** [splitext_append] at a concrete input. *)
Lemma splitext_append_witness :
  splitext ("build/.hidden" +:+ String "." "ml") = ("build/.hidden", ".ml").
Proof. apply (splitext_append "build/.hidden" "ml"); reflexivity. Defined.


(** [save_call_other_functions] at a concrete input. *)
Lemma save_call_other_functions_witness :
  let self : Store Z Z Z :=
    mkStore ∅ {[ "g" := [({[ "x" := 1 ]}, 10)] ]} ∅ ∅ ∅ ∅ in
  let self' := set_function_calls self
                 (<[ "f" := [({[ "x" := 1 ]}, 11)] ]> (_function_calls self)) in
  find_call self' "g" {[ "x" := 1 ]} = (Some 0, Some 10).
Proof.
  intros self self'.
  destruct (save_call_other_functions self "f" None {[ "x" := 1 ]} 11 0 self')
    as (Hother & _); [reflexivity|].
  by rewrite (Hother "g" {[ "x" := 1 ]}).
Defined.

End MoreExamples.
